(** * discord-menus: the flow engine

    A shallow embedding of [Phase] (src/Phase.ts), [PromptRunner] and
    [PromptNode], with the properties of the validation, the branch
    selection, the collection phase and the traversal.

    Conventions of the embedding.
    - Asynchronous code is run to completion one event at a time: a
      listener (and the collection function, condition or channel send it
      awaits) settles before the next collector event is looked at.
    - Whatever lives outside the engine (the channel, the collection
      functions, the branch conditions) acts on an abstract world [W] and
      may fail; every call the engine makes to it is appended to an effect
      log, so that "is (never) invoked" and "is sent" are statements about
      that log.
    - Time is a logical clock in milliseconds: incoming messages carry their
      arrival time and a timeout armed at time [t] fires at [t] plus the
      delay that [setTimeout] makes of its argument ([setTimeout_delay]).
    - Numbers are integers: a duration is a [Z], so the one other falsy
      number, [NaN], is not a duration here.
    - [PromptRunner] is written against a class [Prompt] that is not among
      the sources; the steps it drives here are those of [Phase], and the
      object [Phase.collect] resolves with is what the runner passes on as
      the data ([JsObject], [await_collect]). *)

From Stdlib Require Import String ZArith List Bool Arith Lia DecimalString.
Import ListNotations.

Local Open Scope string_scope.
Local Open Scope list_scope.
Local Open Scope Z_scope.

Set Warnings "-register-all".

(** ** Data model *)

(** [MessageInterface]: only [content] is read by the engine. *)
Record MessageInterface : Type := mkMessage { content : string }.

(** [Format]: what a format generator produces and [channel.send] takes. *)
Record Format : Type := mkFormat { text : string; embed : option string }.

(** [{ text: s }] *)
Definition textOnly (s : string) : Format := {| text := s; embed := None |}.

(** What a collection function, a condition or a send can fail with:
    an instance of [Rejection], or any other error. *)
Inductive Thrown : Type :=
| Rejection (message : string)
| JsError (message : string).

(** [err.message] *)
Definition thrown_message (e : Thrown) : string :=
  match e with Rejection s => s | JsError s => s end.

(** Result of calling external code. *)
Inductive Completion (A : Type) : Type :=
| Normal (a : A)
| Throw (e : Thrown).
Arguments Normal {A} a.
Arguments Throw {A} e.

Section Engine.

(** [T], the data carried along the traversal, and the world outside. *)
Variable D : Type.
Variable W : Type.

(** [PhaseFunction<T>] and [PhaseCondition<T>]. *)
Definition PhaseFunction : Type := MessageInterface -> D -> W -> Completion D * W.
Definition PhaseCondition : Type := D -> W -> Completion bool * W.
Definition FormatGenerator : Type := D -> Format.

(** [ChannelInterface]: [send] resolves with the sent message or fails with
    an error of the transport. *)
Record ChannelInterface : Type := mkChannel {
  send : Format -> W -> (string + MessageInterface) * W
}.

(** [Phase<T> extends TreeNode<Phase<T>>]. [PromptRunner] and [PromptNode]
    name their step class [Prompt]; of its members they use [condition],
    [children], [collect], [getNext] and [shouldRunCollector], which [Phase]
    defines, and [sendUserFormatMessage], which it does not (see
    [sendUserFormatMessage] below). [duration] is the field the constructor
    has set, 60000 when it was given none. *)
Inductive Phase : Type := mkPhase {
  formatGenerator : FormatGenerator;
  duration : Z;
  messages : list MessageInterface;
  function : option PhaseFunction;
  condition : option PhaseCondition;
  children : list Phase
}.

(** [PromptNode extends TreeNode<PromptNode>]: a node holds its prompt and
    reads the branch condition from it. *)
Inductive PromptNode : Type := mkPromptNode {
  prompt : Phase;
  node_children : list PromptNode
}.

(** [Phase.STRINGS] *)
Definition STRINGS_exit : string := "Menu has been closed.".
Definition STRINGS_inactivity : string := "Menu has been closed due to inactivity.".
Definition STRINGS_rejected : string := "That is not a valid input. Try again.".

(** JavaScript truthiness of an optional function: [!x] is [negb (truthy x)]. *)
Definition truthy {A : Type} (x : option A) : bool :=
  match x with Some _ => true | None => false end.

(** ** Validation *)

(** [PromptRunner.valid] *)
Fixpoint valid (prompt : Phase) : bool :=
  let children := children prompt in
  let multipleChildren := (1 <? length children)%nat in
  (fix each (cs : list Phase) : bool :=
     match cs with
     | [] => true
     | child :: rest =>
         if multipleChildren && negb (truthy (condition child)) then false
         else if negb (valid child) then false
         else each rest
     end) children.

(** [PromptNode.hasValidChildren] *)
Definition hasValidChildren (this : PromptNode) : bool :=
  let children := node_children this in
  if (length children <=? 1)%nat then true
  else
    (fix each (cs : list PromptNode) : bool :=
       match cs with
       | [] => true
       | child :: rest =>
           if negb (truthy (condition (prompt child))) then false
           else each rest
       end) children.

(** The node of a step: the step as its own prompt, over the nodes of its
    children. *)
Fixpoint nodeOf (p : Phase) : PromptNode :=
  {| prompt := p; node_children := map nodeOf (children p) |}.

(** [reachable root n]: [n] is [root] or a descendant of it. *)
Inductive reachable : Phase -> Phase -> Prop :=
| reach_self : forall p, reachable p p
| reach_child : forall p c n, In c (children p) -> reachable c n -> reachable p n.

(** Number of edges on the longest path below a step. *)
Fixpoint height (p : Phase) : nat :=
  (fix over (cs : list Phase) : nat :=
     match cs with
     | [] => O
     | c :: rest => Nat.max (S (height c)) (over rest)
     end) (children p).

(** ** Effects and state *)

(** Events of [PhaseCollectorInterface] that the engine emits. *)
Inductive Emitted : Type :=
| Ev_reject (m : MessageInterface) (e : Thrown)
| Ev_accept (m : MessageInterface) (d : D)
| Ev_exit (m : MessageInterface)
| Ev_inactivity
| Ev_error (m : MessageInterface) (e : Thrown)
| Ev_stop.

(** The calls the engine makes to its collaborators, in order. *)
Inductive Effect : Type :=
| Eff_send (f : Format)
| Eff_createCollector (initialMessage : option MessageInterface)
| Eff_setTimeout (delay : Z)
| Eff_clearTimeout
| Eff_emit (ev : Emitted)
| Eff_function (m : MessageInterface)
| Eff_condition (i : nat).

(** The state threaded through the engine: the outside world, the clock,
    the messages still to arrive (with their arrival times), the effect
    log, and [PromptRunner.ran]. *)
Record State : Type := mkState {
  world : W;
  clock : Z;
  inbox : list (Z * MessageInterface);
  log : list Effect;
  ran : list Phase
}.

Definition set_world (w : W) (st : State) : State :=
  {| world := w; clock := clock st; inbox := inbox st; log := log st; ran := ran st |}.
Definition set_clock (t : Z) (st : State) : State :=
  {| world := world st; clock := t; inbox := inbox st; log := log st; ran := ran st |}.
Definition set_inbox (i : list (Z * MessageInterface)) (st : State) : State :=
  {| world := world st; clock := clock st; inbox := i; log := log st; ran := ran st |}.
Definition record (e : Effect) (st : State) : State :=
  {| world := world st; clock := clock st; inbox := inbox st;
     log := log st ++ [e]; ran := ran st |}.
Definition push_ran (p : Phase) (st : State) : State :=
  {| world := world st; clock := clock st; inbox := inbox st; log := log st;
     ran := ran st ++ [p] |}.

(** [channel.send(format)] *)
Definition channel_send (channel : ChannelInterface) (f : Format) (st : State)
  : (string + MessageInterface) * State :=
  let st1 := record (Eff_send f) st in
  let (r, w) := send channel f (world st1) in
  (r, set_world w st1).

(** [func(message, data)] *)
Definition call_function (func : PhaseFunction) (m : MessageInterface) (data : D)
  (st : State) : Completion D * State :=
  let st1 := record (Eff_function m) st in
  let (r, w) := func m data (world st1) in
  (r, set_world w st1).

(** [child.condition(data)] for the child at index [i]. *)
Definition call_condition (i : nat) (cond : PhaseCondition) (data : D)
  (st : State) : Completion bool * State :=
  let st1 := record (Eff_condition i) st in
  let (r, w) := cond data (world st1) in
  (r, set_world w st1).

(** ** The collection phase *)

(** [PhaseReturnData<T>] *)
Record PhaseReturnData : Type := mkReturn {
  message : option MessageInterface;
  data : D
}.

(** The promise returned by [collect]; once settled it no longer changes. *)
Inductive Promise : Type :=
| Pending
| Resolved (r : PhaseReturnData)
| Rejected (e : Thrown).

(** What one call of [collect] owns: the step itself (its [messages] and
    [children] are mutated), the timeout of [handleCollector] (its deadline
    while it is armed) and the promise. *)
Record Collection : Type := mkCollection {
  this : Phase;
  timer : option Z;
  promise : Promise
}.

(** [storeMessage] *)
Definition storeMessage (m : MessageInterface) (p : Phase) : Phase :=
  {| formatGenerator := formatGenerator p; duration := duration p;
     messages := messages p ++ [m]; function := function p;
     condition := condition p; children := children p |}.

(** [setChildren] *)
Definition setChildren (nodes : list Phase) (p : Phase) : Phase :=
  {| formatGenerator := formatGenerator p; duration := duration p;
     messages := messages p; function := function p;
     condition := condition p; children := nodes |}.

Definition store (m : MessageInterface) (c : Collection) : Collection :=
  {| this := storeMessage m (this c); timer := timer c; promise := promise c |}.

(** [resolve(r)] and [reject(e)] of the promise executor. *)
Definition resolve (r : PhaseReturnData) (c : Collection) : Collection :=
  match promise c with
  | Pending => {| this := this c; timer := timer c; promise := Resolved r |}
  | _ => c
  end.

Definition reject (e : Thrown) (c : Collection) : Collection :=
  match promise c with
  | Pending => {| this := this c; timer := timer c; promise := Rejected e |}
  | _ => c
  end.

(** The listeners attached to a collector, as the function run by [emit]. *)
Definition Emitter : Type := Emitted -> Collection -> State -> Collection * State.

(** [emitter.emit(ev, ...)] *)
Definition emit (emitter : Emitter) (ev : Emitted) (c : Collection) (st : State)
  : Collection * State :=
  emitter ev c (record (Eff_emit ev) st).

(** [Phase.handleMessage] *)
Definition handleMessage (emitter : Emitter) (message : MessageInterface)
  (func : PhaseFunction) (data : D) (c : Collection) (st : State)
  : bool * (Collection * State) :=
  if String.eqb (content message) "exit" then
    (true, emit emitter (Ev_exit message) c st)
  else
    let (r, st1) := call_function func message data st in
    match r with
    | Normal newData => (true, emit emitter (Ev_accept message newData) c st1)
    | Throw (Rejection s) =>
        (false, emit emitter (Ev_reject message (Rejection s)) c st1)
    | Throw err => (true, emit emitter (Ev_error message err) c st1)
    end.

(** [if (duration)] on a number. *)
Definition nonzero (duration : Z) : bool := negb (duration =? 0).

(** The delay [setTimeout(callback, delay)] waits for: a delay below 1 or
    above 2147483647 (the largest 32-bit signed integer) is taken as 1. *)
Definition setTimeout_delay (delay : Z) : Z :=
  if (delay <? 1) || (2147483647 <? delay) then 1 else delay.

(** [Phase.handleCollector], the part run at once: arming the timeout.
    [setTimeout] is called with the duration as it is; the deadline is the
    one the platform's timer makes of it. *)
Definition handleCollector (duration : Z) (c : Collection) (st : State)
  : Collection * State :=
  if nonzero duration then
    ({| this := this c; timer := Some (clock st + setTimeout_delay duration);
        promise := promise c |},
     record (Eff_setTimeout duration) st)
  else (c, st).

(** [clearTimeout(timer)] *)
Definition clearTimeout (c : Collection) (st : State) : Collection * State :=
  ({| this := this c; timer := None; promise := promise c |},
   record Eff_clearTimeout st).

(** [Phase.handleCollector], the callback of [setTimeout]. *)
Definition onTimeout (emitter : Emitter) (c : Collection) (st : State)
  : Collection * State :=
  let c0 := {| this := this c; timer := None; promise := promise c |} in
  let (c1, st1) := emit emitter Ev_stop c0 st in
  emit emitter Ev_inactivity c1 st1.

(** [Phase.handleCollector], the listener of ['message']. *)
Definition onMessage (emitter : Emitter) (func : PhaseFunction) (data : D)
  (thisMessage : MessageInterface) (c : Collection) (st : State)
  : Collection * State :=
  let '(stopCollecting, (c1, st1)) := handleMessage emitter thisMessage func data c st in
  if stopCollecting then
    let (c2, st2) := emit emitter Ev_stop c1 st1 in
    clearTimeout c2 st2
  else (c1, st1).

(** [terminateHere], with the [resolve] of [terminate] in [collect]; a
    failed send is what [.catch(reject)] receives. *)
Definition terminate (channel : ChannelInterface) (data : D)
  (terminateString : string) (c : Collection) (st : State) : Collection * State :=
  let c1 := {| this := setChildren [] (this c); timer := timer c; promise := promise c |} in
  let (r, st1) := channel_send channel (textOnly terminateString) st in
  match r with
  | inr sent => (resolve {| message := Some sent; data := data |} (store sent c1), st1)
  | inl err => (reject (JsError err) c1, st1)
  end.

(** [err.message || Phase.STRINGS.rejected] *)
Definition invalidFeedback (err : Thrown) : string :=
  if String.eqb (thrown_message err) "" then STRINGS_rejected else thrown_message err.

(** The listeners [collect] attaches to its collector. ['stop'] has no
    listener in the engine: it tells the collector to stop. *)
Definition listeners (channel : ChannelInterface) (data : D) : Emitter :=
  fun ev c st =>
    match ev with
    | Ev_error lastUserInput err => (reject err (store lastUserInput c), st)
    | Ev_inactivity => terminate channel data STRINGS_inactivity c st
    | Ev_exit exitMessage =>
        terminate channel data STRINGS_exit (store exitMessage c) st
    | Ev_accept acceptMessage acceptData =>
        (resolve {| message := Some acceptMessage; data := acceptData |}
           (store acceptMessage c), st)
    | Ev_reject userInput err =>
        let c1 := store userInput c in
        let (r, st1) := channel_send channel (textOnly (invalidFeedback err)) st in
        match r with
        | inr m => (store m c1, st1)
        | inl e => (reject (JsError e) c1, st1)
        end
    | Ev_stop => (c, st)
    end.

(** The deadline of the timeout when it is due at time [t]. *)
Definition due (timer : option Z) (t : Z) : option Z :=
  match timer with
  | Some deadline => if deadline <=? t then Some deadline else None
  | None => None
  end.

(** The life of a collector: while the promise is pending, the messages
    arrive in order, each handled by [onMessage]; the timeout, if armed,
    fires before the first message that arrives at or after its deadline,
    and at its deadline when no message is left. Without a timeout and
    without messages the promise stays pending. Once the promise is
    settled the caller of [collect] goes on, and the messages left are
    those of the phases to come. *)
Fixpoint pump (emitter : Emitter) (func : PhaseFunction) (data : D)
  (incoming : list (Z * MessageInterface)) (c : Collection) (st : State)
  : Collection * State :=
  match promise c with
  | Pending =>
      match incoming with
      | [] =>
          match timer c with
          | Some deadline =>
              onTimeout emitter c (set_clock (Z.max (clock st) deadline) st)
          | None => (c, st)
          end
      | (t, m) :: rest =>
          match due (timer c) t with
          | Some deadline =>
              onTimeout emitter c (set_clock (Z.max (clock st) deadline) st)
          | None =>
              let (c1, st1) :=
                onMessage emitter func data m c
                  (set_inbox rest (set_clock (Z.max (clock st) t) st)) in
              pump emitter func data rest c1 st1
          end
      end
  | _ => (c, st)
  end.

(** [Phase.collect] *)
Definition collect (p : Phase) (channel : ChannelInterface) (data : D)
  (triggerMessage : option MessageInterface) (st : State) : Collection * State :=
  match function p with
  | None =>
      ({| this := p; timer := None;
          promise := Resolved {| message := None; data := data |} |}, st)
  | Some func =>
      let st1 := record (Eff_createCollector triggerMessage) st in
      let (c, st2) :=
        handleCollector (duration p)
          {| this := p; timer := None; promise := Pending |} st1 in
      pump (listeners channel data) func data (inbox st2) c st2
  end.

(** ** Awaiting code: the runner's monad *)

(** How an [async] function ends: it returns, it throws, or a promise it
    awaits never settles. [OutOfFuel] is the bound of the traversal loop
    running out, which [execute] never meets (see [execute_fuel]). *)
Inductive Outcome (A : Type) : Type :=
| Returned (a : A)
| Threw (e : Thrown)
| Waiting
| OutOfFuel.
Arguments Returned {A} a.
Arguments Threw {A} e.
Arguments Waiting {A}.
Arguments OutOfFuel {A}.

Definition M (A : Type) : Type := State -> Outcome A * State.

Definition ret {A : Type} (a : A) : M A := fun st => (Returned a, st).

Definition throw {A : Type} (e : Thrown) : M A := fun st => (Threw e, st).

Definition bind {A B : Type} (m : M A) (k : A -> M B) : M B :=
  fun st =>
    match m st with
    | (Returned a, st1) => k a st1
    | (Threw e, st1) => (Threw e, st1)
    | (Waiting, st1) => (Waiting, st1)
    | (OutOfFuel, st1) => (OutOfFuel, st1)
    end.

Notation "x <- m ;; k" := (bind m (fun x => k))
  (at level 61, m at next level, right associativity).
Notation "m ;;; k" := (bind m (fun _ => k))
  (at level 61, right associativity).

(** [await child.condition(data)] *)
Definition await_condition (i : nat) (cond : PhaseCondition) (data : D) : M bool :=
  fun st =>
    match call_condition i cond data st with
    | (Normal b, st1) => (Returned b, st1)
    | (Throw e, st1) => (Threw e, st1)
    end.

(** [await channel.send(format)] *)
Definition await_send (channel : ChannelInterface) (f : Format) : M MessageInterface :=
  fun st =>
    match channel_send channel f st with
    | (inr sent, st1) => (Returned sent, st1)
    | (inl err, st1) => (Threw (JsError err), st1)
    end.

(** The runner takes what [collect] resolves with for the data
    ([const promptData: T = await thisPrompt.collect(channel, thisData)]),
    and [Phase.collect] resolves with the object [{ message, data }]. At
    run time that object is the value handed on: to the conditions of the
    children, to the format generator and the collection function of the
    next step. [wrap r] is the object [r] as a value of the data type. *)
Class JsObject : Type := wrap : PhaseReturnData -> D.

Context {JS : JsObject}.

(** [await thisPrompt.collect(channel, thisData)]: the value the promise
    resolved with, and the step as [collect] left it. *)
Definition await_collect (p : Phase) (channel : ChannelInterface) (thisData : D)
  : M (D * Phase) :=
  fun st =>
    let (c, st1) := collect p channel thisData None st in
    match promise c with
    | Resolved r => (Returned (wrap r, this c), st1)
    | Rejected e => (Threw e, st1)
    | Pending => (Waiting, st1)
    end.

(** ** Branch selection *)

(** The loop of [Phase.getNext], from index [i] over the children left. *)
Fixpoint getNext_from (i : nat) (children : list Phase) (data : D)
  : M (option Phase) :=
  match children with
  | [] => ret None
  | child :: rest =>
      match condition child with
      | None => ret (Some child)
      | Some cond =>
          b <- await_condition i cond data ;;
          if b then ret (Some child) else getNext_from (S i) rest data
      end
  end.

(** [Phase.getNext] *)
Definition getNext (this : Phase) (data : D) : M (option Phase) :=
  getNext_from 0 (children this) data.

(** The loop of [PromptNode.getNext]. *)
Fixpoint node_getNext_from (i : nat) (children : list PromptNode) (data : D)
  : M (option PromptNode) :=
  match children with
  | [] => ret None
  | child :: rest =>
      let childPrompt := prompt child in
      match condition childPrompt with
      | None => ret (Some child)
      | Some cond =>
          b <- await_condition i cond data ;;
          if b then ret (Some child) else node_getNext_from (S i) rest data
      end
  end.

(** [PromptNode.getNext] *)
Definition node_getNext (this : PromptNode) (data : D) : M (option PromptNode) :=
  node_getNext_from 0 (node_children this) data.

(** ** The runner *)

(** [Phase.shouldRunCollector] *)
Definition shouldRunCollector (p : Phase) : bool := true.

(** [Phase.sendMessage]; returned with the step in which the sent message
    is stored. *)
Definition sendMessage (p : Phase) (channel : ChannelInterface) (data : D)
  : M (MessageInterface * Phase) :=
  let format := formatGenerator p data in
  sent <- await_send channel format ;;
  ret (sent, storeMessage sent p).

(** Modelled from the spec: the class [Prompt] that [PromptRunner] drives
    is not among the sources. The members [collect], [getNext],
    [shouldRunCollector], [condition] and [children] that the runner uses
    are those of [Phase], the step class the sources do define;
    [sendUserFormatMessage], which [PromptRunner.execute] calls on each
    step it visits, is defined nowhere. The spec gives a step one operation
    for its outbound message, "Render+send": compute the outbound content
    from the current data via the format generator, hand it to the channel,
    and record the sent message. That is what [Phase.sendMessage] does. *)
Definition sendUserFormatMessage (p : Phase) (channel : ChannelInterface)
  (data : D) : M (MessageInterface * Phase) :=
  sendMessage p channel data.

(** [PromptRunner]; its [ran] is the field [ran] of the state. *)
Record PromptRunner : Type := mkRunner { initialData : D }.

(** [this.ran.push(prompt)] *)
Definition push (p : Phase) : M unit := fun st => (Returned tt, push_ran p st).

(** The [while] loop of [PromptRunner.execute]. Each turn goes one level
    down the tree, [fuel] bounds the number of turns. *)
Fixpoint loop (fuel : nat) (channel : ChannelInterface) (thisPrompt : Phase)
  (thisData : D) : M unit :=
  match fuel with
  | O => fun st => (OutOfFuel, st)
  | S fuel' =>
      if shouldRunCollector thisPrompt then
        collected <- await_collect thisPrompt channel thisData ;;
        let promptData := fst collected in
        next <- getNext (snd collected) promptData ;;
        match next with
        | Some nextPrompt =>
            sent <- sendUserFormatMessage nextPrompt channel promptData ;;
            push (snd sent) ;;;
            loop fuel' channel (snd sent) promptData
        | None => ret tt
        end
      else ret tt
  end.

(** [PromptRunner.execute] *)
Definition execute (runner : PromptRunner) (initialPrompt : Phase)
  (channel : ChannelInterface) : M unit :=
  push initialPrompt ;;;
  sent <- sendUserFormatMessage initialPrompt channel (initialData runner) ;;
  loop (S (height initialPrompt)) channel (snd sent) (initialData runner).

Definition invalid_prompt : string :=
  "Invalid prompt found. Prompts with more than 1 child must have all its children to have a condition function specified.".

(** [PromptRunner.run] *)
Definition run (runner : PromptRunner) (prompt : Phase)
  (channel : ChannelInterface) : M unit :=
  if negb (valid prompt) then throw (JsError invalid_prompt)
  else execute runner prompt channel.

(** ** The other methods *)

(** [Phase.terminateHere]: the children are dropped before the send, so
    they stay dropped when the send fails; the sent message is stored. The
    result is that of the send, with the step as it is left. *)
Definition terminateHere (p : Phase) (channel : ChannelInterface)
  (terminateString : string) (st : State)
  : (string + MessageInterface) * Phase * State :=
  let p1 := setChildren [] p in
  let (r, st1) := channel_send channel (textOnly terminateString) st in
  match r with
  | inr sent => (inr sent, storeMessage sent p1, st1)
  | inl err => (inl err, p1, st1)
  end.

(** [PromptNode.setChildren] *)
Definition node_setChildren (nodes : list PromptNode) (this : PromptNode)
  : PromptNode :=
  {| prompt := prompt this; node_children := nodes |}.

(** [PromptNode.addChild] *)
Definition node_addChild (node : PromptNode) (this : PromptNode) : PromptNode :=
  {| prompt := prompt this; node_children := node_children this ++ [node] |}.

(** [Array.prototype.indexOf] from index [i] on: the index of the first
    element that is [same] as [x], or -1. *)
Fixpoint indexOf_from {A : Type} (same : A -> A -> bool) (i : Z) (xs : list A)
  (x : A) : Z :=
  match xs with
  | [] => -1
  | y :: rest => if same y x then i else indexOf_from same (i + 1) rest x
  end.

(** [PromptRunner.indexOf]. [same] is the identity of objects ([===]),
    which steps embedded as values do not carry. *)
Definition indexOf (same : Phase -> Phase -> bool) (st : State) (prompt : Phase)
  : Z :=
  indexOf_from same 0 (ran st) prompt.

(** [PromptRunner.indexesOf] *)
Definition indexesOf (same : Phase -> Phase -> bool) (st : State)
  (prompts : list Phase) : list Z :=
  map (fun prompt => indexOf same st prompt) prompts.

End Engine.

Arguments mkChannel {W} send.
Arguments send {W} c f w.
Arguments mkPhase {D W} formatGenerator duration messages function condition children.
Arguments formatGenerator {D W} p.
Arguments duration {D W} p.
Arguments messages {D W} p.
Arguments function {D W} p.
Arguments condition {D W} p.
Arguments children {D W} p.
Arguments mkPromptNode {D W} prompt node_children.
Arguments prompt {D W} p.
Arguments node_children {D W} p.
Arguments valid {D W} prompt.
Arguments hasValidChildren {D W} this.
Arguments nodeOf {D W} p.
Arguments reachable {D W} _ _.
Arguments reach_self {D W} p.
Arguments reach_child {D W} p c n _ _.
Arguments height {D W} p.
Arguments Ev_reject {D} m e.
Arguments Ev_accept {D} m d.
Arguments Ev_exit {D} m.
Arguments Ev_inactivity {D}.
Arguments Ev_error {D} m e.
Arguments Ev_stop {D}.
Arguments Eff_send {D} f.
Arguments Eff_createCollector {D} initialMessage.
Arguments Eff_setTimeout {D} delay.
Arguments Eff_clearTimeout {D}.
Arguments Eff_emit {D} ev.
Arguments Eff_function {D} m.
Arguments Eff_condition {D} i.
Arguments mkState {D W} world clock inbox log ran.
Arguments world {D W} s.
Arguments clock {D W} s.
Arguments inbox {D W} s.
Arguments log {D W} s.
Arguments ran {D W} s.
Arguments set_world {D W} w st.
Arguments set_clock {D W} t st.
Arguments set_inbox {D W} i st.
Arguments record {D W} e st.
Arguments push_ran {D W} p st.
Arguments channel_send {D W} channel f st.
Arguments call_function {D W} func m data st.
Arguments call_condition {D W} i cond data st.
Arguments mkReturn {D} message data.
Arguments message {D} p.
Arguments data {D} p.
Arguments Pending {D}.
Arguments Resolved {D} r.
Arguments Rejected {D} e.
Arguments mkCollection {D W} this timer promise.
Arguments this {D W} c.
Arguments timer {D W} c.
Arguments promise {D W} c.
Arguments storeMessage {D W} m p.
Arguments setChildren {D W} nodes p.
Arguments store {D W} m c.
Arguments resolve {D W} r c.
Arguments reject {D W} e c.
Arguments emit {D W} emitter ev c st.
Arguments handleMessage {D W} emitter message func data c st.
Arguments handleCollector {D W} duration c st.
Arguments clearTimeout {D W} c st.
Arguments onTimeout {D W} emitter c st.
Arguments onMessage {D W} emitter func data thisMessage c st.
Arguments terminate {D W} channel data terminateString c st.
Arguments listeners {D W} channel data _ _ _.
Arguments pump {D W} emitter func data incoming c st.
Arguments collect {D W} p channel data triggerMessage st.
Arguments Returned {A} a.
Arguments Threw {A} e.
Arguments Waiting {A}.
Arguments OutOfFuel {A}.
Arguments ret {D W A} a _.
Arguments throw {D W A} e _.
Arguments bind {D W A B} m k _.
Arguments await_condition {D W} i cond data _.
Arguments await_send {D W} channel f _.
Arguments wrap {D JsObject} _.
Arguments await_collect {D W JS} p channel thisData _.
Arguments getNext_from {D W} i children data _.
Arguments getNext {D W} this data _.
Arguments node_getNext_from {D W} i children data _.
Arguments node_getNext {D W} this data _.
Arguments shouldRunCollector {D W} p.
Arguments sendMessage {D W} p channel data _.
Arguments sendUserFormatMessage {D W} p channel data _.
Arguments mkRunner {D} initialData.
Arguments initialData {D} p.
Arguments push {D W} p _.
Arguments loop {D W JS} fuel channel thisPrompt thisData _.
Arguments execute {D W JS} runner initialPrompt channel _.
Arguments run {D W JS} runner prompt channel _.
Arguments terminateHere {D W} p channel terminateString st.
Arguments node_setChildren {D W} nodes this.
Arguments node_addChild {D W} node this.
Arguments indexOf {D W} same st prompt.
Arguments indexesOf {D W} same st prompts.

Notation "x <- m ;; k" := (bind m (fun x => k))
  (at level 61, m at next level, right associativity).
Notation "m ;;; k" := (bind m (fun _ => k))
  (at level 61, right associativity).

(** * The vocabulary of the properties *)
Section Vocabulary.

Context {D W : Type} {JS : JsObject D}.
Implicit Types (st : State D W) (data d : D) (p q n : Phase D W)
  (channel : ChannelInterface W) (runner : PromptRunner D).

(** What [hasValidChildren] asks of a node. *)
Definition conditioned n : Prop :=
  (1 < length (children n))%nat ->
  forall c, In c (children n) -> condition c <> None.

(** The selection loop over any kind of child that carries an optional
    condition: [Phase.getNext] reads it from the child, [PromptNode.getNext]
    from the child's prompt. *)
Section Generic.

Context {X : Type} (cond_of : X -> option (PhaseCondition D W)).

Fixpoint select_from (i : nat) (xs : list X) (data : D) : M D W (option X) :=
  match xs with
  | [] => ret None
  | child :: rest =>
      match cond_of child with
      | None => ret (Some child)
      | Some cond =>
          b <- await_condition i cond data ;;
          if b then ret (Some child) else select_from (S i) rest data
      end
  end.

(** [rejects data i xs st st']: from [st], the conditions of [xs] (the
    children from index [i] on) are evaluated one after the other, each is
    present and answers [false], and [st'] is the state after the last. *)
Inductive rejects (data : D) : nat -> list X -> State D W -> State D W -> Prop :=
| rejects_nil : forall i st, rejects data i [] st st
| rejects_cons : forall i child rest cond st st1 st2,
    cond_of child = Some cond ->
    call_condition i cond data st = (Normal false, st1) ->
    rejects data (S i) rest st1 st2 ->
    rejects data i (child :: rest) st st2.

(** [admits data i child st st']: the child at index [i] is eligible in
    [st]: it has no condition (and nothing is evaluated), or its condition
    is evaluated and answers [true], leaving [st']. *)
Definition admits (data : D) (i : nat) (child : X) (st st' : State D W) : Prop :=
  (cond_of child = None /\ st' = st)
  \/ (exists cond, cond_of child = Some cond
        /\ call_condition i cond data st = (Normal true, st')).

(** [fails data i child e st st']: the condition of the child at index [i]
    is evaluated in [st] and throws [e]. *)
Definition fails (data : D) (i : nat) (child : X) (e : Thrown)
  (st st' : State D W) : Prop :=
  exists cond, cond_of child = Some cond
    /\ call_condition i cond data st = (Throw e, st').

(** How many conditions a selection that ends at [child] has evaluated
    after [n] rejected children. *)
Definition evaluated (n : nat) (child : X) : nat :=
  if truthy (cond_of child) then S n else n.

End Generic.

(** The selection [select] over the children [xs], whose conditions are
    read by [cond_of], picks the first eligible child. For every data value
    and state:
    - when the children before [child] are all rejected and [child] is
      eligible, [child] is returned whatever the later children [post] are,
      and the conditions called are those of the children up to [child], in
      order, and no other;
    - when every child is rejected the result is the sentinel, and each
      condition was called once, in order;
    - without children the result is the sentinel and nothing is called;
    - and a selection never ends otherwise, except by the error of the
      first condition that throws. *)
Definition first_eligible_wins {X : Type}
  (cond_of : X -> option (PhaseCondition D W)) (xs : list X)
  (select : D -> M D W (option X)) : Prop :=
  forall data st,
    (forall pre child post st1 st',
        xs = pre ++ child :: post ->
        rejects cond_of data 0 pre st st1 ->
        admits cond_of data (length pre) child st1 st' ->
        select data st = (Returned (Some child), st')
        /\ log st' = log st
             ++ map Eff_condition (seq 0 (evaluated cond_of (length pre) child)))
    /\ (forall st',
        rejects cond_of data 0 xs st st' ->
        select data st = (Returned None, st')
        /\ log st' = log st ++ map Eff_condition (seq 0 (length xs)))
    /\ (xs = [] -> select data st = (Returned None, st))
    /\ match select data st with
       | (Returned (Some child), st') =>
           exists pre post st1,
             xs = pre ++ child :: post /\ rejects cond_of data 0 pre st st1
             /\ admits cond_of data (length pre) child st1 st'
       | (Returned None, st') => rejects cond_of data 0 xs st st'
       | (Threw e, st') =>
           exists pre child post st1,
             xs = pre ++ child :: post /\ rejects cond_of data 0 pre st st1
             /\ fails cond_of data (length pre) child e st1 st'
       | (Waiting, _) | (OutOfFuel, _) => False
       end.

(** The delays of the timeouts armed in a log, in order. *)
Definition armings (l : list (Effect D)) : list Z :=
  flat_map (fun e => match e with Eff_setTimeout d => [d] | _ => [] end) l.

(** Effects other than arming a timeout. *)
Definition no_arming (e : Effect D) : Prop :=
  match e with Eff_setTimeout _ => False | _ => True end.

(** Effects other than emitting ['inactivity']. *)
Definition no_inactivity (e : Effect D) : Prop :=
  match e with Eff_emit Ev_inactivity => False | _ => True end.

(** [st'] extends the log of [st] by effects that all satisfy [P]. *)
Definition adds (P : Effect D -> Prop) st st' : Prop :=
  exists delta, log st' = log st ++ delta /\ Forall P delta.

(** Effects a message may cause: calling the function, emitting anything
    but ['inactivity'], sending, and clearing the timeout. *)
Definition by_message (e : Effect D) : Prop :=
  match e with
  | Eff_function _ | Eff_send _ | Eff_clearTimeout => True
  | Eff_emit ev => match ev with Ev_inactivity => False | _ => True end
  | _ => False
  end.

(** A promise rejected with a [Rejection]. *)
Definition rejected_with_rejection (q : Promise D) : Prop :=
  exists s, q = Rejected (Rejection s).

(** The step a handler leaves differs from the one it found in its
    [messages], and in its [children] when they are dropped. *)
Definition same_step (p p' : Phase D W) : Prop :=
  formatGenerator p' = formatGenerator p /\ duration p' = duration p
  /\ function p' = function p /\ condition p' = condition p
  /\ (children p' = children p \/ children p' = []).

(** Effects that leave the timeout and the collector as they are. *)
Definition keeps_timer (e : Effect D) : Prop :=
  match e with
  | Eff_setTimeout _ | Eff_clearTimeout | Eff_emit Ev_stop => False
  | _ => True
  end.

(** The phase of [p] arms one timeout, and arms it with the duration of
    [p]. *)
Definition timeout_armed_once (p : Phase D W) channel data trig st : Prop :=
  armings (log (snd (collect p channel data trig st))) = armings (log st) ++ [duration p].

(** [reaches channel (p, d, st) (p', d', st')]: the traversal, about to
    collect at step [p] with data [d] in state [st], comes to collect at
    step [p'] with data [d'] in state [st']. *)
Inductive reaches channel :
  Phase D W * D * State D W -> Phase D W * D * State D W -> Prop :=
| reaches_here : forall x, reaches channel x x
| reaches_next : forall p d st promptData p1 st1 nextPrompt st2 sent st3 y,
    await_collect p channel d st = (Returned (promptData, p1), st1) ->
    getNext p1 promptData st1 = (Returned (Some nextPrompt), st2) ->
    sendMessage nextPrompt channel promptData st2 = (Returned sent, st3) ->
    reaches channel (snd sent, promptData, push_ran (snd sent) st3) y ->
    reaches channel (p, d, st) y.

(** [visits runner root channel st p d st']: [execute], started on [root]
    in state [st], comes to collect at step [p]. *)
Definition visits runner (root : Phase D W) channel st p d st' : Prop :=
  exists sent st1,
    sendMessage root channel (initialData runner) (push_ran root st)
    = (Returned sent, st1)
    /\ reaches channel (snd sent, initialData runner, st1) (p, d, st').

(** The number of collectors created in a log. *)
Definition collectors (l : list (Effect D)) : nat :=
  length (filter (fun e => match e with Eff_createCollector _ => true | _ => false end) l).

(** Effects that are the evaluation of a condition. *)
Definition is_condition (e : Effect D) : Prop :=
  match e with Eff_condition _ => True | _ => False end.

(** Effects that are a call of the collection function. *)
Definition is_function_call (e : Effect D) : Prop :=
  match e with Eff_function _ => True | _ => False end.

(** Emitting ['exit'] or ['inactivity']. *)
Definition ends_menu (e : Effect D) : Prop :=
  match e with
  | Eff_emit (Ev_exit _) | Eff_emit Ev_inactivity => True
  | _ => False
  end.

(** Between [st] and [st'] the log gained an ['exit'] or ['inactivity']. *)
Definition menu_ended st st' : Prop :=
  exists before e after, log st' = log st ++ before ++ e :: after /\ ends_menu e.

(** [descending h l]: the heights along [l] go strictly down, starting
    below [h]. *)
Fixpoint descending (h : nat) (l : list (Phase D W)) : Prop :=
  match l with
  | [] => True
  | q :: rest => (height q < h)%nat /\ descending (height q) rest
  end.

(** Every step of the tree has a duration that is not zero. *)
Definition all_timed p : Prop := forall n, reachable p n -> duration n <> 0.

(** [f] on the value an outcome returns. *)
Definition map_outcome {A B : Type} (f : A -> B) (o : Outcome A) : Outcome B :=
  match o with
  | Returned a => Returned (f a)
  | Threw e => Threw e
  | Waiting => Waiting
  | OutOfFuel => OutOfFuel
  end.

(** Effects of a phase under way: anything but creating a collector,
    arming a timeout and evaluating a condition. *)
Definition in_phase (e : Effect D) : Prop :=
  match e with
  | Eff_createCollector _ | Eff_setTimeout _ | Eff_condition _ => False
  | _ => True
  end.

(** Effects other than creating a collector and arming a timeout. *)
Definition no_collector (e : Effect D) : Prop :=
  match e with
  | Eff_createCollector _ | Eff_setTimeout _ => False
  | _ => True
  end.

(** The collector of [p] as [collect] sets it up, before any message is
    looked at: the collector is created and the timeout armed. *)
Definition phase_start p (trig : option MessageInterface) st
  : Collection D W * State D W :=
  handleCollector (duration p) {| this := p; timer := None; promise := Pending |}
    (record (Eff_createCollector trig) st).

(** [retried channel data func pre post c st c' st']: the collector is at
    [(c, st)] and the messages [pre ++ post] are still to arrive. Each
    message of [pre] arrives before the deadline, is not the exit token, is
    rejected by [func] with a [Rejection], and the feedback for it is sent;
    [(c', st')] is the collector after the last of them, with [post] still
    to arrive. *)
Inductive retried channel data (func : PhaseFunction D W) :
  list (Z * MessageInterface) -> list (Z * MessageInterface) ->
  Collection D W -> State D W -> Collection D W -> State D W -> Prop :=
| retried_nil : forall post c st, retried channel data func [] post c st c st
| retried_cons : forall t m pre post c st s w sent w' c1 st1 c2 st2,
    due (timer c) t = None ->
    content m <> "exit" ->
    func m data (world st) = (Throw (Rejection s), w) ->
    send channel (textOnly (invalidFeedback (Rejection s))) w = (inr sent, w') ->
    onMessage (listeners channel data) func data m c
      (set_inbox (pre ++ post) (set_clock (Z.max (clock st) t) st)) = (c1, st1) ->
    retried channel data func pre post c1 st1 c2 st2 ->
    retried channel data func ((t, m) :: pre) post c st c2 st2.

(** How [terminateHere] settles the promise of [collect]: the send of the
    termination message resolves it with the sent message and the data the
    phase was given, or rejects it with the error of the channel. *)
Definition terminated data (r : string + MessageInterface) : Promise D :=
  match r with
  | inr sent => Resolved {| message := Some sent; data := data |}
  | inl err => Rejected (JsError err)
  end.

(** What the caller of [execute] gets after a termination: a normal
    return, or the error of the channel when the termination message could
    not be sent. *)
Definition returned_after (r : string + MessageInterface) : Outcome unit :=
  match r with
  | inr _ => Returned tt
  | inl err => Threw (JsError err)
  end.


(** How a phase can have ended, read off the end of the log: by a message
    that stopped the collector, the timeout being cleared last; by the
    timeout, which sends the inactivity message; or by the feedback for a
    rejected message failing to be sent. *)
Definition stopped_by_message (l : list (Effect D)) : Prop :=
  exists before, l = before ++ [Eff_emit Ev_stop; Eff_clearTimeout].
Definition stopped_by_timeout (l : list (Effect D)) : Prop :=
  exists before,
    l = before ++ [Eff_emit Ev_stop; Eff_emit Ev_inactivity;
                   Eff_send (textOnly STRINGS_inactivity)].
Definition stopped_by_failed_feedback (l : list (Effect D)) : Prop :=
  exists before m s,
    l = before ++ [Eff_emit (Ev_reject m (Rejection s));
                   Eff_send (textOnly (invalidFeedback (Rejection s)))].

End Vocabulary.

(** ** A concrete menu

    A menu to evaluate the engine on, in the manner of the one of the
    integration test: ask a name, ask an age, then branch on the age. Its
    functions and conditions are written here. The world counts the calls
    that reach it. *)
Module Menu.

Record PromptData : Type := mkData { name : option string; age : option Z }.

(** The number written by a string of decimal digits, 0 for the empty
    string; no other string is read as a number here. *)
Definition number (s : string) : option Z :=
  option_map Z.of_uint (DecimalString.NilZero.uint_of_string s).

Definition channel : ChannelInterface nat :=
  {| send := fun f w => (inr {| content := text f |}, S w) |}.

(** A channel whose sends all fail. *)
Definition deadChannel : ChannelInterface nat :=
  {| send := fun f w => (inl "Missing Access", S w) |}.

Definition form (s : string) : FormatGenerator PromptData := fun _ => textOnly s.

Definition askNameFn : PhaseFunction PromptData nat :=
  fun m data w => (Normal {| name := Some (content m); age := age data |}, S w).

Definition askAgeFn : PhaseFunction PromptData nat :=
  fun m data w =>
    match number (content m) with
    | None => (Throw (Rejection ""), S w)
    | Some n => (Normal {| name := name data; age := Some n |}, S w)
    end.

(** A collection function that fails with an error of its own. *)
Definition brokenFn : PhaseFunction PromptData nat :=
  fun m data w => (Throw (JsError "Missing data"), S w).

(** A collection function that rejects what is not a number and fails on
    an age it cannot store. *)
Definition strictAgeFn : PhaseFunction PromptData nat :=
  fun m data w =>
    match number (content m) with
    | None => (Throw (Rejection ""), S w)
    | Some n =>
        if 150 <? n then (Throw (JsError "Out of range"), S w)
        else (Normal {| name := name data; age := Some n |}, S w)
    end.

Definition tooOldCondition : PhaseCondition PromptData nat :=
  fun data w =>
    (Normal (match age data with Some a => 20 <=? a | None => false end), S w).

(** [!!(data.age && data.age < 20)]: an age of 0 is falsy. *)
Definition tooYoungCondition : PhaseCondition PromptData nat :=
  fun data w =>
    (Normal (match age data with
             | Some a => negb (a =? 0) && (a <? 20)
             | None => false
             end), S w).

Definition tooOld : Phase PromptData nat :=
  mkPhase (form "too old") 60000 [] None (Some tooOldCondition) [].
Definition tooYoung : Phase PromptData nat :=
  mkPhase (form "too young") 60000 [] None (Some tooYoungCondition) [].
Definition askAge : Phase PromptData nat :=
  mkPhase (form "age?") 60000 [] (Some askAgeFn) None [tooOld; tooYoung].
Definition askName : Phase PromptData nat :=
  mkPhase (form "name?") 60000 [] (Some askNameFn) None [askAge].

(** Three conditioned children: the first refuses, the others accept. *)
Definition never : PhaseCondition PromptData nat := fun _ w => (Normal false, S w).
Definition always : PhaseCondition PromptData nat := fun _ w => (Normal true, S w).
Definition childA : Phase PromptData nat :=
  mkPhase (form "A") 60000 [] None (Some never) [].
Definition childB : Phase PromptData nat :=
  mkPhase (form "B") 60000 [] None (Some always) [].
Definition childC : Phase PromptData nat :=
  mkPhase (form "C") 60000 [] None (Some always) [].
Definition threeWay : Phase PromptData nat :=
  mkPhase (form "which?") 60000 [] None None [childA; childB; childC].

(** Two children, the second without a condition. *)
Definition unconditioned : Phase PromptData nat :=
  mkPhase (form "anything") 60000 [] None None [].
Definition badFork : Phase PromptData nat :=
  mkPhase (form "fork") 60000 [] None None [tooOld; unconditioned].
Definition badMenu : Phase PromptData nat :=
  mkPhase (form "menu") 60000 [] None None [badFork].

(** A step that collects with no timeout, and one that waits ten seconds. *)
Definition patient : Phase PromptData nat :=
  mkPhase (form "name?") 0 [] (Some askAgeFn) None [].
Definition tenSeconds : Phase PromptData nat :=
  mkPhase (form "age?") 10000 [] (Some askAgeFn) None [tooOld; tooYoung].
Definition broken : Phase PromptData nat :=
  mkPhase (form "name?") 60000 [] (Some brokenFn) None [askAge].

(** A menu whose second step may fail on the age. *)
Definition strictAge : Phase PromptData nat :=
  mkPhase (form "age?") 60000 [] (Some strictAgeFn) None [tooOld; tooYoung].
Definition strictMenu : Phase PromptData nat :=
  mkPhase (form "name?") 60000 [] (Some askNameFn) None [strictAge].

(** A step that is to wait fifty days. *)
Definition fiftyDays : Phase PromptData nat :=
  mkPhase (form "age?") 4320000000 [] (Some askAgeFn) None [tooOld; tooYoung].

Definition noData : PromptData := {| name := None; age := None |}.

(** The object [{ message, data }] read as a [PromptData]: it has neither
    a [name] nor an [age]. *)
#[export] Instance asPromptData : JsObject PromptData := fun _ => noData.
Definition runner : PromptRunner PromptData := {| initialData := noData |}.

(** The state before a run, with the messages that will arrive. *)
Definition start (incoming : list (Z * MessageInterface)) : State PromptData nat :=
  {| world := O; clock := 0; inbox := incoming; log := []; ran := [] |}.

Definition exitMessage : MessageInterface := {| content := "exit" |}.
Definition george : MessageInterface := {| content := "George" |}.
Definition thirty : MessageInterface := {| content := "30" |}.
Definition notANumber : MessageInterface := {| content := "abc" |}.
Definition tooMany : MessageInterface := {| content := "999" |}.

(** A phase of [askAge] that started at time 5. *)
Definition collecting : Collection PromptData nat :=
  {| this := askAge; timer := Some 60005; promise := Pending |}.

Definition texts (st : State PromptData nat) : list string :=
  map (fun p => text (formatGenerator p noData)) (ran st).

(** The data once George has said he is thirty. *)
Definition georgeIsThirty : PromptData :=
  {| name := Some "George"; age := Some 30 |}.

(** A phase of [askName] that started at time 0. *)
Definition askingName : Collection PromptData nat :=
  {| this := askName; timer := Some 60000; promise := Pending |}.

(** Steps told apart by the text they send, for the queries on the trace. *)
Definition sameText (q p : Phase PromptData nat) : bool :=
  String.eqb (text (formatGenerator q noData)) (text (formatGenerator p noData)).

End Menu.

(** * Properties *)

(** ** Validation *)
Section Validation.

Context {D W : Type}.
Implicit Types p c n root : Phase D W.

(** Induction over a step with the property known of all its children. *)
Lemma Phase_children_ind (P : Phase D W -> Prop) :
  (forall p, Forall P (children p) -> P p) -> forall p, P p.
Proof.
  intros step. fix IH 1. intros p. apply step.
  destruct p as [g d ms f k cs]. simpl.
  revert cs. fix IHcs 1. intros [|c cs].
  - constructor.
  - constructor; [apply IH | apply IHcs].
Qed.

Lemma truthy_true {A : Type} (x : option A) : truthy x = true <-> x <> None.
Proof. destruct x; simpl; split; congruence. Qed.

(** The loop of [valid] as a conjunction over the children. *)
Lemma valid_unfold p :
  valid p =
  forallb (fun child =>
             (negb (1 <? length (children p))%nat || truthy (condition child))
             && valid child) (children p).
Proof.
  destruct p as [g d ms f k cs]. cbn [valid children].
  generalize (1 <? length cs)%nat. intros b.
  induction cs as [|c cs IH]; [reflexivity|].
  cbn [forallb]. rewrite <- IH.
  destruct b, (truthy (condition c)), (valid c); reflexivity.
Qed.

Lemma hasValidChildren_loop (cs : list (PromptNode D W)) :
  (fix each (cs : list (PromptNode D W)) : bool :=
     match cs with
     | [] => true
     | child :: rest =>
         if negb (truthy (condition (prompt child))) then false else each rest
     end) cs
  = forallb (fun child => truthy (condition (prompt child))) cs.
Proof.
  induction cs as [|c cs IH]; [reflexivity|].
  cbn [forallb]. rewrite <- IH. destruct (truthy (condition (prompt c))); reflexivity.
Qed.

Lemma prompt_nodeOf p : prompt (nodeOf p) = p.
Proof. destruct p; reflexivity. Qed.

Lemma hasValidChildren_nodeOf n :
  hasValidChildren (nodeOf n) = true <-> conditioned n.
Proof.
  unfold hasValidChildren, conditioned.
  destruct n as [g d ms f k cs]. cbn [nodeOf node_children children].
  rewrite hasValidChildren_loop, length_map.
  destruct (Nat.leb_spec (length cs) 1) as [Hle|Hgt].
  - split; [intros _ Hlt; lia | reflexivity].
  - rewrite forallb_forall. split.
    + intros H _ c Hc. apply truthy_true.
      rewrite <- (prompt_nodeOf c). apply H. apply in_map. exact Hc.
    + intros H x Hx. apply in_map_iff in Hx. destruct Hx as [c [<- Hc]].
      rewrite prompt_nodeOf. apply truthy_true. apply (H Hgt _ Hc).
Qed.

Lemma reachable_trans p c n : reachable p c -> reachable c n -> reachable p n.
Proof.
  induction 1 as [|p c' m Hin _ IH]; [auto|].
  intros Hn. eapply reach_child; [exact Hin | auto].
Qed.

Lemma valid_iff_conditioned root :
  valid root = true <-> forall n, reachable root n -> conditioned n.
Proof.
  induction root as [p IH] using Phase_children_ind.
  rewrite valid_unfold, forallb_forall. rewrite Forall_forall in IH. split.
  - intros H n Hn. inversion Hn as [|p' c n' Hin Hc]; subst.
    + intros Hlt c Hc. apply truthy_true.
      destruct (andb_prop _ _ (H c Hc)) as [H1 _].
      apply Nat.ltb_lt in Hlt. rewrite Hlt in H1. exact H1.
    + destruct (andb_prop _ _ (H c Hin)) as [_ H2].
      apply (proj1 (IH c Hin) H2 n Hc).
  - intros H c Hc. apply andb_true_intro. split.
    + destruct (Nat.ltb_spec 1 (length (children p))) as [Hlt|Hle]; [|reflexivity].
      cbn [negb orb]. apply truthy_true. apply (H p (reach_self p) Hlt c Hc).
    + apply (IH c Hc). intros n Hn. apply H. eapply reach_child; eauto.
Qed.

(** C1. [validate(root)] is true exactly when every node reachable from the
    root that has more than one child has a condition on each of its
    children; this is the check of [hasValidChildren] at every reachable
    node, which asks nothing of the children of a node with at most one
    child. *)
Theorem valid_iff_branching_nodes_conditioned root :
  (valid root = true <->
   forall n, reachable root n ->
     (1 < length (children n))%nat ->
     forall c, In c (children n) -> condition c <> None)
  /\ (valid root = true <->
      forall n, reachable root n -> hasValidChildren (nodeOf n) = true)
  /\ (forall n, reachable root n -> (length (children n) <= 1)%nat ->
      hasValidChildren (nodeOf n) = true).
Proof.
  split; [apply valid_iff_conditioned|]. split.
  - rewrite valid_iff_conditioned. split; intros H n Hn.
    + apply hasValidChildren_nodeOf. auto.
    + apply hasValidChildren_nodeOf. auto.
  - intros n _ Hle. apply hasValidChildren_nodeOf. intros Hlt. lia.
Qed.

End Validation.

(** ** Branch selection *)
Section Selection.

Context {D W : Type}.
Implicit Types (st : State D W) (data : D) (cond : PhaseCondition D W).

Section AnyChild.

Context {X : Type} (cond_of : X -> option (PhaseCondition D W)).

Lemma call_condition_log i cond data st r st' :
  call_condition i cond data st = (r, st') ->
  log st' = log st ++ [Eff_condition i].
Proof.
  unfold call_condition. cbn [world record].
  destruct (cond data (world st)) as [r0 w]. intros [= _ <-]. reflexivity.
Qed.

Lemma rejects_log data i xs st st' :
  rejects cond_of data i xs st st' ->
  log st' = log st ++ map Eff_condition (seq i (length xs)).
Proof.
  induction 1 as [i st | i child rest cond st st1 st2 _ Hcall _ IH].
  - cbn. now rewrite app_nil_r.
  - rewrite IH, (call_condition_log _ _ _ _ _ _ Hcall), <- app_assoc. reflexivity.
Qed.

Lemma admits_log data i child st st' :
  admits cond_of data i child st st' ->
  log st' = log st ++ map Eff_condition (seq i (evaluated cond_of 0 child)).
Proof.
  unfold evaluated. intros [[-> ->] | [cond [-> Hcall]]]; cbn.
  - now rewrite app_nil_r.
  - apply (call_condition_log _ _ _ _ _ _ Hcall).
Qed.

(** The first eligible child is returned, whatever follows it. *)
Lemma select_from_first data pre : forall i child post st st1 st',
  rejects cond_of data i pre st st1 ->
  admits cond_of data (i + length pre) child st1 st' ->
  select_from cond_of i (pre ++ child :: post) data st = (Returned (Some child), st').
Proof.
  induction pre as [|x pre IH]; intros i child post st st1 st' Hrej Hadm.
  - inversion Hrej; subst. cbn [app select_from length] in *.
    rewrite Nat.add_0_r in Hadm.
    destruct Hadm as [[-> ->] | [cond [-> Hcall]]]; [reflexivity|].
    unfold bind, await_condition. rewrite Hcall. reflexivity.
  - inversion Hrej as [| i' c' r' cond s0 s1 s2 Hc Hcall Hrest]; subst.
    cbn [app select_from]. rewrite Hc.
    unfold bind at 1. unfold await_condition. rewrite Hcall.
    apply (IH (S i) child post s1 st1 st' Hrest).
    cbn [length] in Hadm. now rewrite Nat.add_succ_r in Hadm.
Qed.

(** No eligible child: the sentinel. *)
Lemma select_from_none data xs : forall i st st',
  rejects cond_of data i xs st st' ->
  select_from cond_of i xs data st = (Returned None, st').
Proof.
  induction xs as [|x xs IH]; intros i st st' Hrej.
  - inversion Hrej; subst. reflexivity.
  - inversion Hrej as [| i' c' r' cond s0 s1 s2 Hc Hcall Hrest]; subst.
    cbn [select_from]. rewrite Hc.
    unfold bind at 1. unfold await_condition. rewrite Hcall.
    apply (IH _ _ _ Hrest).
Qed.

(** Every selection ends in one of three ways. *)
Lemma select_from_cases data xs : forall i st,
  match select_from cond_of i xs data st with
  | (Returned (Some child), st') =>
      exists pre post st1,
        xs = pre ++ child :: post /\ rejects cond_of data i pre st st1
        /\ admits cond_of data (i + length pre) child st1 st'
  | (Returned None, st') => rejects cond_of data i xs st st'
  | (Threw e, st') =>
      exists pre child post st1,
        xs = pre ++ child :: post /\ rejects cond_of data i pre st st1
        /\ fails cond_of data (i + length pre) child e st1 st'
  | (Waiting, _) | (OutOfFuel, _) => False
  end.
Proof.
  induction xs as [|x xs IH]; intros i st.
  - cbn. constructor.
  - cbn [select_from]. destruct (cond_of x) as [cond|] eqn:Hc.
    + unfold bind at 1. unfold await_condition.
      destruct (call_condition i cond data st) as [[[|]|e] st1] eqn:Hcall.
      * cbn. exists [], xs, st. cbn. rewrite Nat.add_0_r.
        repeat split; [constructor|]. right. eauto.
      * specialize (IH (S i) st1).
        destruct (select_from cond_of (S i) xs data st1) as [[[child|]|e| |] st'].
        -- destruct IH as (pre & post & s1 & -> & Hrej & Hadm).
           exists (x :: pre), post, s1. cbn [app length].
           rewrite Nat.add_succ_r. repeat split; [|exact Hadm].
           econstructor; eauto.
        -- econstructor; eauto.
        -- destruct IH as (pre & child & post & s1 & -> & Hrej & Hf).
           exists (x :: pre), child, post, s1. cbn [app length].
           rewrite Nat.add_succ_r. repeat split; [|exact Hf].
           econstructor; eauto.
        -- exact IH.
        -- exact IH.
      * exists [], x, xs, st. cbn. rewrite Nat.add_0_r.
        repeat split; [constructor|]. exists cond. auto.
    + cbn. exists [], xs, st. cbn. repeat split; [constructor|]. left. auto.
Qed.

End AnyChild.

(** Both loops of the source are this selection. *)
Lemma getNext_select (this : Phase D W) data st :
  getNext this data st = select_from condition 0 (children this) data st.
Proof. reflexivity. Qed.

Lemma node_getNext_select (this : PromptNode D W) data st :
  node_getNext this data st
  = select_from (fun child => condition (prompt child)) 0 (node_children this) data st.
Proof. reflexivity. Qed.

Lemma select_first_eligible_wins {X : Type}
  (cond_of : X -> option (PhaseCondition D W)) (xs : list X) :
  first_eligible_wins cond_of xs (select_from cond_of 0 xs).
Proof.
  intros data st. split; [|split; [|split]].
  - intros pre child post st1 st' -> Hrej Hadm. split.
    + eapply select_from_first; eauto.
    + rewrite (admits_log _ _ _ _ _ _ Hadm), (rejects_log _ _ _ _ _ _ Hrej).
      rewrite <- app_assoc, <- map_app. do 2 f_equal.
      unfold evaluated. destruct (truthy (cond_of child)).
      * replace (S (length pre)) with (length pre + 1)%nat by lia.
        now rewrite seq_app.
      * cbn [seq]. now rewrite app_nil_r.
  - intros st' Hrej. split.
    + now apply select_from_none.
    + now apply (rejects_log _ _ _ _ _ _ Hrej).
  - intros ->. reflexivity.
  - apply (select_from_cases cond_of data xs 0 st).
Qed.

(** C2. [Phase.getNext] and [PromptNode.getNext] evaluate the conditions of
    the children in declared order, return the first child without a
    condition or whose condition answers true, call no condition of a later
    child, and return null when no child is eligible, also when there is no
    child. *)
Theorem getNext_first_eligible_short_circuit
  (phase : Phase D W) (node : PromptNode D W) :
  first_eligible_wins condition (children phase) (getNext phase)
  /\ first_eligible_wins (fun child => condition (prompt child))
       (node_children node) (node_getNext node).
Proof.
  split.
  - apply (select_first_eligible_wins condition (children phase)).
  - apply (select_first_eligible_wins (fun child => condition (prompt child))
             (node_children node)).
Qed.

End Selection.

(** ** The collection phase: one event at a time *)
Section Collecting.

Context {D W : Type} {JS : JsObject D}.
Implicit Types (st : State D W) (c : Collection D W) (data : D)
  (func : PhaseFunction D W) (channel : ChannelInterface W) (m : MessageInterface).

Lemma adds_refl P st : adds P st st.
Proof. exists []. split; [now rewrite app_nil_r | constructor]. Qed.

Lemma adds_trans P st st1 st2 : adds P st st1 -> adds P st1 st2 -> adds P st st2.
Proof.
  intros (d1 & E1 & F1) (d2 & E2 & F2). exists (d1 ++ d2). split.
  - now rewrite E2, E1, app_assoc.
  - apply Forall_app. auto.
Qed.

Lemma adds_record P e st : P e -> adds P st (record e st).
Proof. intros H. exists [e]. split; [reflexivity | repeat constructor; exact H]. Qed.

Lemma armings_app (l1 l2 : list (Effect D)) :
  armings (l1 ++ l2) = armings l1 ++ armings l2.
Proof. apply flat_map_app. Qed.

Lemma armings_quiet (delta : list (Effect D)) :
  Forall no_arming delta -> armings delta = [].
Proof.
  induction 1 as [|e l He _ IH]; [reflexivity|].
  destruct e; cbn in He; try tauto; exact IH.
Qed.

Lemma adds_armings st st' : adds no_arming st st' -> armings (log st') = armings (log st).
Proof.
  intros (d & -> & F). now rewrite armings_app, (armings_quiet _ F), app_nil_r.
Qed.

Lemma adds_weaken (P Q : Effect D -> Prop) st st' :
  (forall e, P e -> Q e) -> adds P st st' -> adds Q st st'.
Proof.
  intros H (d & E & F). exists d. split; [exact E|].
  eapply Forall_impl; eauto.
Qed.

Ltac log_shape :=
  eexists; split;
  [ cbn; repeat rewrite <- app_assoc; cbn [app]; reflexivity
  | repeat constructor ].

Ltac run_listeners :=
  unfold emit, listeners, terminate, clearTimeout, channel_send, call_function,
    store, resolve, reject;
  cbn [world record set_world this timer promise log].

Ltac run_handlers :=
  unfold emit, listeners, terminate, clearTimeout, channel_send, call_function, store;
  cbn [world record set_world this timer promise log].

Lemma this_resolve r c : this (resolve r c) = this c.
Proof. unfold resolve. destruct (promise c); reflexivity. Qed.

Lemma timer_resolve r c : timer (resolve r c) = timer c.
Proof. unfold resolve. destruct (promise c); reflexivity. Qed.

Lemma this_reject e c : this (reject e c) = this c.
Proof. unfold reject. destruct (promise c); reflexivity. Qed.

Lemma timer_reject e c : timer (reject e c) = timer c.
Proof. unfold reject. destruct (promise c); reflexivity. Qed.

Lemma promise_resolve r c : promise c = Pending -> promise (resolve r c) = Resolved r.
Proof. unfold resolve. intros ->. reflexivity. Qed.

Lemma promise_reject e c : promise c = Pending -> promise (reject e c) = Rejected e.
Proof. unfold reject. intros ->. reflexivity. Qed.

Ltac settle :=
  rewrite ?this_resolve, ?timer_resolve, ?this_reject, ?timer_reject;
  cbn [this timer promise children messages setChildren storeMessage].

(** The whole of what handling one message does. *)
Lemma onMessage_effects channel data func m c st c' st' :
  onMessage (listeners channel data) func data m c st = (c', st') ->
  adds by_message st st'
  /\ (timer c' = timer c \/ timer c' = None)
  /\ (rejected_with_rejection (promise c') -> rejected_with_rejection (promise c))
  /\ (promise c <> Pending -> promise c' = promise c).
Proof.
  unfold onMessage, handleMessage.
  destruct (String.eqb (content m) "exit").
  - run_listeners.
    destruct (send channel (textOnly STRINGS_exit) (world st)) as [[err|sent] w];
      destruct (promise c) eqn:Hp; cbn [promise]; intros [= <- <-]; cbn [timer promise];
      (split; [log_shape|]); (split; [auto|]); rewrite ?Hp;
      (split; [first [exact (fun H => H) | intros [x [=]]] | try congruence; auto]).
  - run_listeners.
    destruct (func m data (world st)) as [[newData|[s|e]] w]; cbn [world record set_world].
    + destruct (promise c) eqn:Hp; cbn [promise]; intros [= <- <-]; cbn [timer promise];
        (split; [log_shape|]); (split; [auto|]); rewrite ?Hp;
        (split; [first [exact (fun H => H) | intros [x [=]]] | try congruence; auto]).
    + destruct (send channel (textOnly (invalidFeedback (Rejection s))) w) as [[err|sent] w'];
        destruct (promise c) eqn:Hp; cbn [promise]; intros [= <- <-]; cbn [timer promise];
        (split; [log_shape|]); (split; [auto|]); rewrite ?Hp;
        (split; [first [exact (fun H => H) | intros [x [=]]] | try congruence; auto]).
    + destruct (promise c) eqn:Hp; cbn [promise]; intros [= <- <-]; cbn [timer promise];
        (split; [log_shape|]); (split; [auto|]); rewrite ?Hp;
        (split; [first [exact (fun H => H) | intros [x [=]]] | try congruence; auto]).
Qed.

(** The whole of what the firing timeout does. *)
Lemma onTimeout_effects channel data c st c' st' :
  onTimeout (listeners channel data) c st = (c', st') ->
  log st' = log st ++ [Eff_emit Ev_stop; Eff_emit Ev_inactivity;
                       Eff_send (textOnly STRINGS_inactivity)]
  /\ timer c' = None
  /\ children (this c') = []
  /\ (rejected_with_rejection (promise c') -> rejected_with_rejection (promise c))
  /\ (promise c = Pending -> promise c' <> Pending).
Proof.
  unfold onTimeout. run_listeners.
  destruct (send channel (textOnly STRINGS_inactivity) (world st)) as [[err|sent] w];
    destruct (promise c) eqn:Hp; cbn [promise]; intros [= <- <-];
    cbn [timer promise this children setChildren storeMessage log set_world record];
    (split; [repeat rewrite <- app_assoc; reflexivity|]);
    (split; [reflexivity|]); (split; [reflexivity|]); rewrite ?Hp;
    (split; [first [exact (fun H => H) | intros [x [=]]] | congruence]).
Qed.

Lemma by_message_no_arming (e : Effect D) : by_message e -> no_arming e.
Proof. destruct e; cbn; auto. Qed.

Lemma by_message_no_inactivity (e : Effect D) : by_message e -> no_inactivity e.
Proof. destruct e as [| | | |[]| |]; cbn; auto. Qed.

Lemma onTimeout_no_arming channel data c st c' st' :
  onTimeout (listeners channel data) c st = (c', st') -> adds no_arming st st'.
Proof.
  intros H. destruct (onTimeout_effects _ _ _ _ _ _ H) as (E & _).
  eexists. split; [exact E | repeat constructor].
Qed.

(** One turn of the collector on a message that arrives before the
    deadline, by the definition of [pump]. *)
Lemma pump_message emitter func data t m rest c st :
  promise c = Pending -> due (timer c) t = None ->
  pump emitter func data ((t, m) :: rest) c st
  = let (c1, st1) :=
      onMessage emitter func data m c
        (set_inbox rest (set_clock (Z.max (clock st) t) st)) in
    pump emitter func data rest c1 st1.
Proof. intros Hp Hd. cbn [pump]. now rewrite Hp, Hd. Qed.

(** A settled promise ends the collector's work. *)
Lemma pump_settled emitter func data incoming c st :
  promise c <> Pending -> pump emitter func data incoming c st = (c, st).
Proof. destruct incoming; cbn [pump]; destruct (promise c); congruence. Qed.

(** What a whole phase can do, whatever arrives. *)
Lemma pump_effects channel data func incoming : forall c st c' st',
  pump (listeners channel data) func data incoming c st = (c', st') ->
  adds no_arming st st'
  /\ (rejected_with_rejection (promise c') -> rejected_with_rejection (promise c))
  /\ (timer c = None -> timer c' = None /\ adds no_inactivity st st').
Proof.
  induction incoming as [|[t m] rest IH]; intros c st c' st'; cbn [pump].
  - destruct (promise c) eqn:Hp; try (intros [= <- <-]; rewrite ?Hp;
      repeat split; auto using adds_refl).
    destruct (timer c) as [deadline|] eqn:Ht.
    + intros H. pose proof (onTimeout_no_arming _ _ _ _ _ _ H) as Ha.
      destruct (onTimeout_effects _ _ _ _ _ _ H) as (_ & _ & _ & Hr & _).
      rewrite Hp in Hr. split; [exact Ha|]. split; [exact Hr|]. discriminate.
    + intros [= <- <-]. rewrite ?Hp. repeat split; auto using adds_refl.
  - destruct (promise c) eqn:Hp; try (intros [= <- <-]; rewrite ?Hp;
      repeat split; auto using adds_refl).
    destruct (due (timer c) t) as [deadline|] eqn:Hd.
    + intros H. pose proof (onTimeout_no_arming _ _ _ _ _ _ H) as Ha.
      destruct (onTimeout_effects _ _ _ _ _ _ H) as (_ & _ & _ & Hr & _).
      rewrite Hp in Hr. split; [exact Ha|]. split; [exact Hr|].
      intros Ht. rewrite Ht in Hd. discriminate.
    + destruct (onMessage (listeners channel data) func data m c
                  (set_inbox rest (set_clock (Z.max (clock st) t) st)))
        as [c1 st1] eqn:Hm.
      intros H. destruct (onMessage_effects _ _ _ _ _ _ _ _ Hm) as (Ha & Ht & Hr & _).
      destruct (IH _ _ _ _ H) as (Ha' & Hr' & Hn).
      rewrite Hp in Hr. split; [|split].
      * eapply adds_trans; [|exact Ha'].
        apply (adds_weaken _ _ _ _ by_message_no_arming Ha).
      * auto.
      * intros Hnone. assert (timer c1 = None) as H1 by (destruct Ht; congruence).
        destruct (Hn H1) as [Hn1 Hn2]. split; [exact Hn1|].
        eapply adds_trans; [|exact Hn2].
        apply (adds_weaken _ _ _ _ by_message_no_inactivity Ha).
Qed.

(** C5. A message whose content is the exit token ends the phase in EXITED
    (['exit'] and ['stop'] are emitted, the children are dropped, the
    termination message is sent, the promise settles and the messages after
    it are left unread) and the collection function is not called for it:
    the log gains no call and the world changes by the send alone. *)
Theorem exit_token_ends_phase_before_function
  channel data func m c st c' st' :
  content m = "exit" ->
  onMessage (listeners channel data) func data m c st = (c', st') ->
  fst (handleMessage (listeners channel data) m func data c st) = true
  /\ log st' = log st ++ [Eff_emit (Ev_exit m); Eff_send (textOnly STRINGS_exit);
                          Eff_emit Ev_stop; Eff_clearTimeout]
  /\ world st' = snd (send channel (textOnly STRINGS_exit) (world st))
  /\ children (this c') = []
  /\ timer c' = None
  /\ (promise c = Pending ->
      match fst (send channel (textOnly STRINGS_exit) (world st)) with
      | inr sent => promise c' = Resolved {| message := Some sent; data := data |}
      | inl err => promise c' = Rejected (JsError err)
      end)
  /\ (forall t rest st0,
      st = set_inbox rest (set_clock (Z.max (clock st0) t) st0) ->
      promise c = Pending -> due (timer c) t = None ->
      pump (listeners channel data) func data ((t, m) :: rest) c st0 = (c', st')).
Proof.
  intros Hexit Hm.
  assert (forall t rest st0,
      st = set_inbox rest (set_clock (Z.max (clock st0) t) st0) ->
      promise c = Pending -> due (timer c) t = None ->
      pump (listeners channel data) func data ((t, m) :: rest) c st0 = (c', st'))
    as Hpump.
  { intros t rest st0 E Hp Hd. rewrite pump_message by assumption.
    rewrite <- E, Hm. apply pump_settled.
    revert Hm. unfold onMessage, handleMessage. rewrite Hexit, String.eqb_refl.
    run_handlers.
    destruct (send channel (textOnly STRINGS_exit) (world st)) as [[err|sent] w];
      intros [= <- _]; cbn [promise];
      rewrite ?promise_resolve, ?promise_reject by exact Hp; discriminate. }
  revert Hpump. revert Hm. unfold onMessage, handleMessage.
  rewrite Hexit, String.eqb_refl. run_handlers.
  destruct (send channel (textOnly STRINGS_exit) (world st)) as [[err|sent] w];
    intros [= <- <-]; cbn [fst snd log world set_world record]; settle;
    intros Hpump;
    (split; [reflexivity|]); (split; [repeat rewrite <- app_assoc; reflexivity|]);
    (split; [reflexivity|]); (split; [reflexivity|]); (split; [reflexivity|]);
    (split; [|exact Hpump]);
    intros Hp; rewrite ?promise_resolve, ?promise_reject by exact Hp; reflexivity.
Qed.

(** The promise of [collect] is never rejected with a [Rejection]. *)
Lemma collect_contains_rejection (p : Phase D W) channel data trig st c' st' :
  collect p channel data trig st = (c', st') ->
  ~ rejected_with_rejection (promise c').
Proof.
  unfold collect. destruct (function p) as [func|].
  - unfold handleCollector. destruct (nonzero (duration p)); intros H;
      destruct (pump_effects _ _ _ _ _ _ _ _ H) as (_ & Hr & _);
      intros Hrej; destruct (Hr Hrej) as [s [=]].
  - intros [= <- _] [s [=]].
Qed.

Lemma exit_eqb_false m : content m <> "exit" -> String.eqb (content m) "exit" = false.
Proof. intros H. now apply String.eqb_neq. Qed.

(** C6. When the collection function fails with a [Rejection], the phase
    stays as it is: the message and the feedback are recorded, the feedback
    sent is the message of the [Rejection] or, when that is empty, the
    default string; neither ['stop'] nor [clearTimeout] happens and the next
    message is handled by the same collector. The promise of [collect] is
    never rejected with a [Rejection], so none reaches the runner. *)
Theorem rejection_retries_within_phase
  channel data func m c st s w c' st' :
  content m <> "exit" ->
  func m data (world st) = (Throw (Rejection s), w) ->
  onMessage (listeners channel data) func data m c st = (c', st') ->
  let feedback := textOnly (if String.eqb s "" then STRINGS_rejected else s) in
  fst (handleMessage (listeners channel data) m func data c st) = false
  /\ log st' = log st ++ [Eff_function m; Eff_emit (Ev_reject m (Rejection s));
                          Eff_send feedback]
  /\ timer c' = timer c
  /\ children (this c') = children (this c)
  /\ match send channel feedback w with
     | (inr sent, w') =>
         messages (this c') = messages (this c) ++ [m; sent]
         /\ promise c' = promise c /\ world st' = w'
     | (inl err, w') =>
         messages (this c') = messages (this c) ++ [m]
         /\ (promise c = Pending -> promise c' = Rejected (JsError err))
         /\ world st' = w'
     end
  /\ (forall t rest st0,
      st = set_inbox rest (set_clock (Z.max (clock st0) t) st0) ->
      promise c = Pending -> due (timer c) t = None ->
      pump (listeners channel data) func data ((t, m) :: rest) c st0
      = pump (listeners channel data) func data rest c' st')
  /\ (forall (p : Phase D W) trig st0 c0 st1 s0,
      collect p channel data trig st0 = (c0, st1) ->
      promise c0 <> Rejected (Rejection s0))
  /\ (forall (p : Phase D W) st0 s0,
      fst (await_collect p channel data st0) <> Threw (Rejection s0)).
Proof.
  intros Hexit Hf Hm feedback.
  assert (forall (p : Phase D W) trig st0 c0 st1 s0,
      collect p channel data trig st0 = (c0, st1) ->
      promise c0 <> Rejected (Rejection s0)) as Hcollect.
  { intros p trig st0 c0 st1 s0 H E.
    apply (collect_contains_rejection _ _ _ _ _ _ _ H). now exists s0. }
  assert (forall t rest st0,
      st = set_inbox rest (set_clock (Z.max (clock st0) t) st0) ->
      promise c = Pending -> due (timer c) t = None ->
      pump (listeners channel data) func data ((t, m) :: rest) c st0
      = pump (listeners channel data) func data rest c' st') as Hpump.
  { intros t rest st0 E Hp Hd. rewrite pump_message by assumption.
    now rewrite <- E, Hm. }
  set (pm := pump (listeners channel data) func data) in *.
  revert Hpump. revert Hm. unfold onMessage, handleMessage.
  rewrite (exit_eqb_false _ Hexit). run_handlers. rewrite Hf.
  unfold invalidFeedback. cbn [world set_world thrown_message]. fold feedback.
  destruct (send channel feedback w) as [[err|sent] w'];
    intros [= <- <-]; cbn [fst snd log world set_world record]; settle;
    intros Hpump;
    (split; [reflexivity|]); (split; [repeat rewrite <- app_assoc; reflexivity|]);
    (split; [reflexivity|]); (split; [reflexivity|]);
    (split; [|split; [exact Hpump|split; [exact Hcollect|]]]).
  - split; [reflexivity|]. split; [|reflexivity].
    intros Hp. now rewrite promise_reject.
  - intros p st0 s0. unfold await_collect.
    destruct (collect p channel data None st0) as [c0 st1] eqn:E.
    destruct (promise c0) eqn:Hp0; cbn; try discriminate.
    intros [= ->]. apply (Hcollect _ _ _ _ _ _ E Hp0).
  - split; [now rewrite <- app_assoc|]. split; reflexivity.
  - intros p st0 s0. unfold await_collect.
    destruct (collect p channel data None st0) as [c0 st1] eqn:E.
    destruct (promise c0) eqn:Hp0; cbn; try discriminate.
    intros [= ->]. apply (Hcollect _ _ _ _ _ _ E Hp0).
Qed.

(** A message the collection function accepts ends the phase in ACCEPTED. *)
Lemma onMessage_accept channel data func m c st newData w c' st' :
  content m <> "exit" ->
  func m data (world st) = (Normal newData, w) ->
  onMessage (listeners channel data) func data m c st = (c', st') ->
  fst (handleMessage (listeners channel data) m func data c st) = true
  /\ log st' = log st ++ [Eff_function m; Eff_emit (Ev_accept m newData);
                          Eff_emit Ev_stop; Eff_clearTimeout]
  /\ world st' = w
  /\ timer c' = None
  /\ children (this c') = children (this c)
  /\ messages (this c') = messages (this c) ++ [m]
  /\ (promise c = Pending ->
      promise c' = Resolved {| message := Some m; data := newData |})
  /\ (forall t rest st0,
      st = set_inbox rest (set_clock (Z.max (clock st0) t) st0) ->
      promise c = Pending -> due (timer c) t = None ->
      pump (listeners channel data) func data ((t, m) :: rest) c st0 = (c', st')).
Proof.
  intros Hexit Hf Hm.
  assert (forall t rest st0,
      st = set_inbox rest (set_clock (Z.max (clock st0) t) st0) ->
      promise c = Pending -> due (timer c) t = None ->
      pump (listeners channel data) func data ((t, m) :: rest) c st0 = (c', st'))
    as Hpump.
  { intros t rest st0 E Hp Hd. rewrite pump_message by assumption.
    rewrite <- E, Hm. apply pump_settled.
    revert Hm. unfold onMessage, handleMessage. rewrite (exit_eqb_false _ Hexit).
    run_handlers. rewrite Hf. intros [= <- _]. cbn [promise].
    rewrite promise_resolve by exact Hp. discriminate. }
  set (pm := pump (listeners channel data) func data) in *.
  revert Hpump. revert Hm. unfold onMessage, handleMessage.
  rewrite (exit_eqb_false _ Hexit). run_handlers. rewrite Hf.
  intros [= <- <-]; cbn [fst snd log world set_world record]; settle.
  intros Hpump.
  (split; [reflexivity|]); (split; [repeat rewrite <- app_assoc; reflexivity|]).
  do 4 (split; [reflexivity|]). split; [|exact Hpump].
  intros Hp. now rewrite promise_resolve.
Qed.

(** A message on which the collection function fails with an error that
    is not a [Rejection] ends the phase in FAILED. *)
Lemma onMessage_error channel data func m c st e w c' st' :
  content m <> "exit" ->
  func m data (world st) = (Throw (JsError e), w) ->
  onMessage (listeners channel data) func data m c st = (c', st') ->
  fst (handleMessage (listeners channel data) m func data c st) = true
  /\ log st' = log st ++ [Eff_function m; Eff_emit (Ev_error m (JsError e));
                          Eff_emit Ev_stop; Eff_clearTimeout]
  /\ world st' = w
  /\ timer c' = None
  /\ children (this c') = children (this c)
  /\ messages (this c') = messages (this c) ++ [m]
  /\ (promise c = Pending -> promise c' = Rejected (JsError e))
  /\ (forall t rest st0,
      st = set_inbox rest (set_clock (Z.max (clock st0) t) st0) ->
      promise c = Pending -> due (timer c) t = None ->
      pump (listeners channel data) func data ((t, m) :: rest) c st0 = (c', st')).
Proof.
  intros Hexit Hf Hm.
  assert (forall t rest st0,
      st = set_inbox rest (set_clock (Z.max (clock st0) t) st0) ->
      promise c = Pending -> due (timer c) t = None ->
      pump (listeners channel data) func data ((t, m) :: rest) c st0 = (c', st'))
    as Hpump.
  { intros t rest st0 E Hp Hd. rewrite pump_message by assumption.
    rewrite <- E, Hm. apply pump_settled.
    revert Hm. unfold onMessage, handleMessage. rewrite (exit_eqb_false _ Hexit).
    run_handlers. rewrite Hf. intros [= <- _]. cbn [promise].
    rewrite promise_reject by exact Hp. discriminate. }
  set (pm := pump (listeners channel data) func data) in *.
  revert Hpump. revert Hm. unfold onMessage, handleMessage.
  rewrite (exit_eqb_false _ Hexit). run_handlers. rewrite Hf.
  intros [= <- <-]; cbn [fst snd log world set_world record]; settle.
  intros Hpump.
  (split; [reflexivity|]); (split; [repeat rewrite <- app_assoc; reflexivity|]).
  do 4 (split; [reflexivity|]). split; [|exact Hpump].
  intros Hp. now rewrite promise_reject.
Qed.

(** What the handlers never touch: the trace of the runner, and the
    messages still to arrive. *)
Lemma onMessage_frame channel data func m c st c' st' :
  onMessage (listeners channel data) func data m c st = (c', st') ->
  ran st' = ran st /\ inbox st' = inbox st /\ clock st' = clock st.
Proof.
  unfold onMessage, handleMessage.
  destruct (String.eqb (content m) "exit"); run_handlers.
  - destruct (send channel (textOnly STRINGS_exit) (world st)) as [[err|sent] w];
      intros [= _ <-]; repeat split.
  - destruct (func m data (world st)) as [[newData|[s|e]] w]; cbn [world set_world].
    + intros [= _ <-]; repeat split.
    + destruct (send channel (textOnly (invalidFeedback (Rejection s))) w)
        as [[err|sent] w']; intros [= _ <-]; repeat split.
    + intros [= _ <-]; repeat split.
Qed.

Lemma onTimeout_frame channel data c st c' st' :
  onTimeout (listeners channel data) c st = (c', st') ->
  ran st' = ran st /\ inbox st' = inbox st /\ clock st' = clock st.
Proof.
  unfold onTimeout. run_handlers.
  destruct (send channel (textOnly STRINGS_inactivity) (world st)) as [[err|sent] w];
    intros [= _ <-]; repeat split.
Qed.

Lemma same_step_refl (p : Phase D W) : same_step p p.
Proof. unfold same_step. auto 6. Qed.

Lemma same_step_trans (p1 p2 p3 : Phase D W) :
  same_step p1 p2 -> same_step p2 p3 -> same_step p1 p3.
Proof.
  unfold same_step. intros (A1 & B1 & C1 & D1 & H1) (A2 & B2 & C2 & D2 & H2).
  repeat split; try congruence.
  destruct H2 as [E|E]; [rewrite E; exact H1 | right; exact E].
Qed.

Lemma onMessage_same_step channel data func m c st c' st' :
  onMessage (listeners channel data) func data m c st = (c', st') ->
  same_step (this c) (this c').
Proof.
  unfold onMessage, handleMessage.
  destruct (String.eqb (content m) "exit"); run_handlers.
  - destruct (send channel (textOnly STRINGS_exit) (world st)) as [[err|sent] w];
      intros [= <- _]; settle; unfold same_step; cbn; auto 6.
  - destruct (func m data (world st)) as [[newData|[s|e]] w]; cbn [world set_world].
    + intros [= <- _]; settle; unfold same_step; cbn; auto 6.
    + destruct (send channel (textOnly (invalidFeedback (Rejection s))) w)
        as [[err|sent] w']; intros [= <- _]; settle; unfold same_step; cbn; auto 6.
    + intros [= <- _]; settle; unfold same_step; cbn; auto 6.
Qed.

Lemma onTimeout_same_step channel data c st c' st' :
  onTimeout (listeners channel data) c st = (c', st') ->
  same_step (this c) (this c').
Proof.
  unfold onTimeout. run_handlers.
  destruct (send channel (textOnly STRINGS_inactivity) (world st)) as [[err|sent] w];
    intros [= <- _]; settle; unfold same_step; cbn; auto 6.
Qed.

(** A whole phase: the trace is left alone, the step is the same step, and
    a promise still pending means that every message was read and that no
    timeout is armed. *)
Lemma pump_frame channel data func incoming : forall c st c' st',
  inbox st = incoming ->
  pump (listeners channel data) func data incoming c st = (c', st') ->
  ran st' = ran st
  /\ same_step (this c) (this c')
  /\ (promise c' = Pending -> inbox st' = [] /\ timer c' = None).
Proof.
  induction incoming as [|[t m] rest IH]; intros c st c' st' Hin; cbn [pump].
  - destruct (promise c) eqn:Hp;
      try (intros [= <- <-]; rewrite Hp; repeat split;
           auto using same_step_refl; discriminate).
    destruct (timer c) as [deadline|] eqn:Ht.
    + intros H. destruct (onTimeout_frame _ _ _ _ _ _ H) as (Hr & _).
      destruct (onTimeout_effects _ _ _ _ _ _ H) as (_ & _ & _ & _ & Hs).
      split; [exact Hr|]. split; [exact (onTimeout_same_step _ _ _ _ _ _ H)|].
      intros Hp'. destruct (Hs Hp Hp').
    + intros [= <- <-]. repeat split; auto using same_step_refl.
  - destruct (promise c) eqn:Hp;
      try (intros [= <- <-]; rewrite Hp; repeat split;
           auto using same_step_refl; discriminate).
    destruct (due (timer c) t) as [deadline|] eqn:Hd.
    + intros H. destruct (onTimeout_frame _ _ _ _ _ _ H) as (Hr & _).
      destruct (onTimeout_effects _ _ _ _ _ _ H) as (_ & _ & _ & _ & Hs).
      split; [exact Hr|]. split; [exact (onTimeout_same_step _ _ _ _ _ _ H)|].
      intros Hp'. destruct (Hs Hp Hp').
    + destruct (onMessage (listeners channel data) func data m c
                  (set_inbox rest (set_clock (Z.max (clock st) t) st)))
        as [c1 st1] eqn:Hm.
      intros H. destruct (onMessage_frame _ _ _ _ _ _ _ _ Hm) as (Hr & Hi & _).
      destruct (IH c1 st1 c' st' Hi H) as (Hr' & Hs' & Hp').
      split; [now rewrite Hr', Hr|]. split; [|exact Hp'].
      eapply same_step_trans; [exact (onMessage_same_step _ _ _ _ _ _ _ _ Hm)|exact Hs'].
Qed.

(** When [handleMessage] answers that collecting stops: always, except on
    a [Rejection] of the collection function. *)
Lemma handleMessage_stops channel data func m c st :
  fst (handleMessage (listeners channel data) m func data c st)
  = if String.eqb (content m) "exit" then true
    else match fst (func m data (world st)) with
         | Throw (Rejection _) => false
         | _ => true
         end.
Proof.
  unfold handleMessage. destruct (String.eqb (content m) "exit"); [reflexivity|].
  unfold call_function. cbn [world record].
  destruct (func m data (world st)) as [[newData|[s|e]] w]; reflexivity.
Qed.

(** The timeout after a message: cleared, after ['stop'], when collecting
    stops; untouched otherwise. *)
Lemma onMessage_timer channel data func m c st c' st' :
  onMessage (listeners channel data) func data m c st = (c', st') ->
  if fst (handleMessage (listeners channel data) m func data c st)
  then timer c' = None
       /\ exists l, log st' = l ++ [Eff_emit Ev_stop; Eff_clearTimeout]
  else timer c' = timer c /\ adds keeps_timer st st'.
Proof.
  unfold onMessage, handleMessage.
  destruct (String.eqb (content m) "exit"); run_handlers.
  - destruct (send channel (textOnly STRINGS_exit) (world st)) as [[err|sent] w];
      intros [= <- <-]; cbn [fst timer log record]; (split; [reflexivity|]);
      eexists; rewrite <- app_assoc; reflexivity.
  - destruct (func m data (world st)) as [[newData|[s|e]] w]; cbn [world set_world].
    + intros [= <- <-]; cbn [fst timer log record]; (split; [reflexivity|]);
        eexists; rewrite <- app_assoc; reflexivity.
    + destruct (send channel (textOnly (invalidFeedback (Rejection s))) w)
        as [[err|sent] w']; intros [= <- <-]; cbn [fst]; settle;
        (split; [reflexivity|]); log_shape.
    + intros [= <- <-]; cbn [fst timer log record]; (split; [reflexivity|]);
        eexists; rewrite <- app_assoc; reflexivity.
Qed.

(** C10. A collection phase whose duration is zero arms no timeout:
    ['inactivity'] is never emitted, and while no message is accepted, is
    the exit token or fails, the promise stays pending, every message
    having been read. *)
Theorem zero_duration_never_inactive
  (p : Phase D W) func channel data trig st c' st' :
  function p = Some func -> duration p = 0 ->
  collect p channel data trig st = (c', st') ->
  armings (log st') = armings (log st)
  /\ adds no_inactivity st st'
  /\ timer c' = None
  /\ (inbox st = [] ->
      promise c' = Pending /\ log st' = log st ++ [Eff_createCollector trig])
  /\ (promise c' = Pending -> inbox st' = []).
Proof.
  intros Hf Hd. unfold collect, handleCollector, nonzero. rewrite Hf, Hd.
  cbn [Z.eqb negb]. intros Hpump.
  destruct (pump_effects _ _ _ _ _ _ _ _ Hpump) as (Ha & _ & Hn).
  destruct (Hn eq_refl) as [Ht Hi].
  destruct (pump_frame _ _ _ _ _ _ _ _ eq_refl Hpump) as (_ & _ & Hp).
  split; [|split; [|split; [exact Ht|split]]].
  - rewrite (adds_armings _ _ Ha). cbn [log record].
    rewrite armings_app. cbn. now rewrite app_nil_r.
  - eapply adds_trans; [|exact Hi]. apply adds_record. exact I.
  - intros Hnil. cbn [inbox record] in Hpump. rewrite Hnil in Hpump.
    cbn in Hpump. injection Hpump as <- <-. split; reflexivity.
  - intros Hpend. apply (Hp Hpend).
Qed.

End Collecting.

(** ** The traversal *)
Section Traversal.

Context {D W : Type} {JS : JsObject D}.
Implicit Types (st : State D W) (p q : Phase D W) (data d : D)
  (channel : ChannelInterface W) (runner : PromptRunner D).

Lemma height_child p c : In c (children p) -> (height c < height p)%nat.
Proof.
  destruct p as [g du ms f k cs]. cbn [children height].
  induction cs as [|x cs IH]; [intros []|].
  intros [->|Hin]; [lia|]. specialize (IH Hin). lia.
Qed.

Lemma height_storeMessage m p : height (storeMessage m p) = height p.
Proof. destruct p. reflexivity. Qed.

Lemma height_same_step p p' : same_step p p' -> (height p' <= height p)%nat.
Proof.
  intros (_ & _ & _ & _ & [E|E]); destruct p, p'; cbn [children] in E; subst.
  - cbn [height children]. lia.
  - cbn [height children]. lia.
Qed.

Lemma collect_frame p channel data trig st c' st' :
  collect p channel data trig st = (c', st') ->
  ran st' = ran st /\ same_step p (this c').
Proof.
  unfold collect. destruct (function p) as [func|].
  - unfold handleCollector. destruct (nonzero (duration p)); intros H;
      destruct (pump_frame _ _ _ _ _ _ _ _ eq_refl H) as (Hr & Hs & _);
      split; assumption.
  - intros [= <- <-]. split; [reflexivity | apply same_step_refl].
Qed.

Lemma await_collect_frame p channel data st d1 p1 st1 :
  await_collect p channel data st = (Returned (d1, p1), st1) ->
  ran st1 = ran st /\ same_step p p1.
Proof.
  unfold await_collect.
  destruct (collect p channel data None st) as [c' st'] eqn:Hc.
  destruct (collect_frame _ _ _ _ _ _ _ Hc) as [Hr Hs].
  destruct (promise c'); intros [= <- <- <-]. split; assumption.
Qed.

Lemma select_from_frame {X : Type} (cond_of : X -> option (PhaseCondition D W))
  data xs : forall i st r st',
  select_from cond_of i xs data st = (r, st') ->
  ran st' = ran st /\ forall x, r = Returned (Some x) -> In x xs.
Proof.
  induction xs as [|x xs IH]; intros i st r st'; cbn [select_from].
  - intros [= <- <-]. split; [reflexivity | discriminate].
  - destruct (cond_of x) as [cond|].
    + unfold bind, await_condition, call_condition. cbn [world record].
      destruct (cond data (world st)) as [[[|]|e] w].
      * intros [= <- <-]. split; [reflexivity|]. intros y [= <-]. now left.
      * intros H. destruct (IH _ _ _ _ H) as [Hr Hin]. split; [exact Hr|].
        intros y Hy. right. auto.
      * intros [= <- <-]. split; [reflexivity | discriminate].
    + intros [= <- <-]. split; [reflexivity|]. intros y [= <-]. now left.
Qed.

Lemma getNext_frame p data st r st' :
  getNext p data st = (r, st') ->
  ran st' = ran st /\ forall c, r = Returned (Some c) -> In c (children p).
Proof. apply (select_from_frame condition data (children p) 0 st r st'). Qed.

Lemma sendMessage_frame p channel data st sent st' :
  sendMessage p channel data st = (Returned sent, st') ->
  ran st' = ran st /\ snd sent = storeMessage (fst sent) p.
Proof.
  unfold sendMessage, bind, await_send, channel_send. cbn [world record].
  destruct (send channel (formatGenerator p data) (world st)) as [[err|m] w];
    [discriminate|].
  intros [= <- <-]. split; reflexivity.
Qed.

(** One turn of the loop of [execute], by cases. *)
Lemma loop_turn fuel channel p d st :
  loop (S fuel) channel p d st
  = match await_collect p channel d st with
    | (Returned (promptData, p1), st1) =>
        match getNext p1 promptData st1 with
        | (Returned (Some nextPrompt), st2) =>
            match sendMessage nextPrompt channel promptData st2 with
            | (Returned sent, st3) =>
                loop fuel channel (snd sent) promptData (push_ran (snd sent) st3)
            | (Threw e, st3) => (Threw e, st3)
            | (Waiting, st3) => (Waiting, st3)
            | (OutOfFuel, st3) => (OutOfFuel, st3)
            end
        | (Returned None, st2) => (Returned tt, st2)
        | (Threw e, st2) => (Threw e, st2)
        | (Waiting, st2) => (Waiting, st2)
        | (OutOfFuel, st2) => (OutOfFuel, st2)
        end
    | (Threw e, st1) => (Threw e, st1)
    | (Waiting, st1) => (Waiting, st1)
    | (OutOfFuel, st1) => (OutOfFuel, st1)
    end.
Proof.
  cbn [loop shouldRunCollector]. unfold bind at 1.
  destruct (await_collect p channel d st) as [[[promptData p1]|e| |] st1];
    try reflexivity.
  cbn [fst snd]. unfold bind at 1.
  destruct (getNext p1 promptData st1) as [[[nextPrompt|]|e| |] st2];
    reflexivity.
Qed.

(** The step the loop moves to lies strictly below the current one. *)
Lemma next_is_lower p channel d st promptData p1 st1 nextPrompt st2 sent st3 :
  await_collect p channel d st = (Returned (promptData, p1), st1) ->
  getNext p1 promptData st1 = (Returned (Some nextPrompt), st2) ->
  sendMessage nextPrompt channel promptData st2 = (Returned sent, st3) ->
  (height (snd sent) < height p)%nat.
Proof.
  intros Hc Hn Hs.
  destruct (await_collect_frame _ _ _ _ _ _ _ Hc) as [_ Hsame].
  destruct (getNext_frame _ _ _ _ _ Hn) as [_ Hin].
  destruct (sendMessage_frame _ _ _ _ _ _ Hs) as [_ ->].
  rewrite height_storeMessage.
  pose proof (height_child _ _ (Hin _ eq_refl)).
  pose proof (height_same_step _ _ Hsame). lia.
Qed.

(** With more fuel than the height of the step, the loop does not depend
    on the fuel. *)
Lemma loop_fuel channel : forall fuel1 fuel2 p d st,
  (height p < fuel1)%nat -> (height p < fuel2)%nat ->
  loop fuel1 channel p d st = loop fuel2 channel p d st.
Proof.
  induction fuel1 as [|fuel1 IH]; intros fuel2 p d st H1 H2; [lia|].
  destruct fuel2 as [|fuel2]; [lia|]. rewrite !loop_turn.
  destruct (await_collect p channel d st) as [[[promptData p1]|e| |] st1] eqn:Hc;
    try reflexivity.
  destruct (getNext p1 promptData st1) as [[[nextPrompt|]|e| |] st2] eqn:Hn;
    try reflexivity.
  destruct (sendMessage nextPrompt channel promptData st2) as [[sent|e| |] st3] eqn:Hs;
    try reflexivity.
  pose proof (next_is_lower _ _ _ _ _ _ _ _ _ _ _ Hc Hn Hs).
  apply IH; lia.
Qed.

(** The bound of the loop is never met. *)
Lemma loop_has_fuel channel : forall fuel p d st,
  (height p < fuel)%nat -> fst (loop fuel channel p d st) <> OutOfFuel.
Proof.
  induction fuel as [|fuel IH]; intros p d st H; [lia|].
  rewrite loop_turn.
  destruct (await_collect p channel d st) as [[[promptData p1]|e| |] st1] eqn:Hc;
    try discriminate.
  - destruct (getNext p1 promptData st1) as [[[nextPrompt|]|e| |] st2] eqn:Hn;
      try discriminate.
    + destruct (sendMessage nextPrompt channel promptData st2)
        as [[sent|e| |] st3] eqn:Hs; try discriminate.
      * pose proof (next_is_lower _ _ _ _ _ _ _ _ _ _ _ Hc Hn Hs).
        apply IH. lia.
      * exfalso. revert Hs. unfold sendMessage, bind, await_send.
        destruct (channel_send channel (formatGenerator nextPrompt promptData) st2)
          as [[err|m] s']; discriminate.
    + pose proof (select_from_cases condition promptData (children p1) 0 st1) as Hcases.
      rewrite <- getNext_select, Hn in Hcases. destruct Hcases.
  - exfalso. revert Hc. unfold await_collect.
    destruct (collect p channel d None st) as [c st']. destruct (promise c); discriminate.
Qed.

Lemma execute_fuel runner p channel st :
  fst (execute runner p channel st) <> OutOfFuel.
Proof.
  unfold execute, sendUserFormatMessage, bind, push.
  destruct (sendMessage p channel (initialData runner) (push_ran p st))
    as [[sent|e| |] st1] eqn:Hs; try discriminate.
  - destruct (sendMessage_frame _ _ _ _ _ _ Hs) as [_ E].
    apply loop_has_fuel. rewrite E, height_storeMessage. lia.
  - revert Hs. unfold sendMessage, bind, await_send.
    destruct (channel_send channel (formatGenerator p (initialData runner))
                (push_ran p st)) as [[err|m] s']; discriminate.
Qed.

Lemma await_collect_ran p channel d st o st1 :
  await_collect p channel d st = (o, st1) -> ran st1 = ran st.
Proof.
  unfold await_collect.
  destruct (collect p channel d None st) as [c0 s0] eqn:Hcol.
  destruct (collect_frame _ _ _ _ _ _ _ Hcol) as [Hr _].
  destruct (promise c0); intros [= _ <-]; exact Hr.
Qed.

Lemma sendMessage_ran p channel d st o st1 :
  sendMessage p channel d st = (o, st1) -> ran st1 = ran st.
Proof.
  unfold sendMessage, bind, await_send, channel_send. cbn [world record].
  destruct (send channel (formatGenerator p d) (world st)) as [[err|m] w];
    intros [= _ <-]; reflexivity.
Qed.


Lemma loop_reaches channel (x y : Phase D W * D * State D W) :
  reaches channel x y ->
  forall fuel, (height (fst (fst x)) < fuel)%nat ->
  loop fuel channel (fst (fst x)) (snd (fst x)) (snd x)
  = loop (S (height (fst (fst y)))) channel (fst (fst y)) (snd (fst y)) (snd y).
Proof.
  induction 1 as [[[p d] st] | p d st promptData p1 st1 nextPrompt st2 sent st3 y
                                 Hc Hn Hs _ IH]; intros fuel Hfuel; cbn [fst snd] in *.
  - apply loop_fuel; lia.
  - destruct fuel as [|fuel]; [lia|]. rewrite loop_turn, Hc, Hn, Hs.
    pose proof (next_is_lower _ _ _ _ _ _ _ _ _ _ _ Hc Hn Hs).
    apply IH. lia.
Qed.

Lemma execute_visits runner root channel st p d st' :
  visits runner root channel st p d st' ->
  execute runner root channel st = loop (S (height p)) channel p d st'.
Proof.
  intros (sent & st1 & Hs & Hr). unfold execute, sendUserFormatMessage, bind, push. rewrite Hs.
  destruct (sendMessage_frame _ _ _ _ _ _ Hs) as [_ E].
  apply (loop_reaches _ _ _ Hr). cbn [fst snd].
  rewrite E, height_storeMessage. lia.
Qed.

(** A rejected promise of [collect] is what the loop throws, at once. *)
Lemma loop_throws channel fuel p d st c' st' err :
  collect p channel d None st = (c', st') ->
  promise c' = Rejected err ->
  loop (S fuel) channel p d st = (Threw err, st').
Proof.
  intros Hc Hp. rewrite loop_turn. unfold await_collect. now rewrite Hc, Hp.
Qed.

Lemma bind_cong {A B : Type} (m : M D W A) (k1 k2 : A -> M D W B) st :
  (forall a st1, m st = (Returned a, st1) -> k1 a st1 = k2 a st1) ->
  bind m k1 st = bind m k2 st.
Proof.
  intros H. unfold bind. destruct (m st) as [[a|e| |] st1]; try reflexivity.
  now apply H.
Qed.


(** C9. [run] validates the whole tree first. When the validation fails,
    that is when some reachable node with more than one child has a child
    without a condition, it throws the error of an invalid prompt and the
    state is untouched: nothing is sent and nothing is recorded. When the
    validation succeeds it is [execute]. *)
Theorem run_validates_before_execute runner (root : Phase D W) channel st :
  (valid root = false ->
   run runner root channel st = (Threw (JsError invalid_prompt), st))
  /\ (valid root = true ->
      run runner root channel st = execute runner root channel st)
  /\ (forall n c,
      reachable root n -> (1 < length (children n))%nat ->
      In c (children n) -> condition c = None ->
      run runner root channel st = (Threw (JsError invalid_prompt), st))
  /\ ((forall n, reachable root n -> (1 < length (children n))%nat ->
         forall c, In c (children n) -> condition c <> None) ->
      run runner root channel st = execute runner root channel st).
Proof.
  assert (valid root = false ->
          run runner root channel st = (Threw (JsError invalid_prompt), st)) as Hbad.
  { intros H. unfold run. rewrite H. reflexivity. }
  assert (valid root = true ->
          run runner root channel st = execute runner root channel st) as Hgood.
  { intros H. unfold run. rewrite H. reflexivity. }
  split; [exact Hbad|]. split; [exact Hgood|]. split.
  - intros n c Hn Hlen Hin Hnone. apply Hbad.
    destruct (valid root) eqn:Hv; [|reflexivity].
    exfalso. apply (proj1 (valid_iff_conditioned root) Hv n Hn Hlen c Hin Hnone).
  - intros H. apply Hgood. apply valid_iff_conditioned. exact H.
Qed.

End Traversal.

(** The proof steps of the collection phase, for the sections below. *)
Ltac step_handlers :=
  unfold emit, listeners, terminate, clearTimeout, channel_send, call_function, store;
  cbn [world record set_world this timer promise log].

Ltac settled :=
  rewrite ?this_resolve, ?timer_resolve, ?this_reject, ?timer_reject;
  cbn [this timer promise children messages setChildren storeMessage].

(** ** More on the collection phase *)
Section CollectingMore.

Context {D W : Type} {JS : JsObject D}.
Implicit Types (st : State D W) (c : Collection D W) (data : D)
  (func : PhaseFunction D W) (channel : ChannelInterface W) (m : MessageInterface).

(** X1. A message that the collection function accepts ends the phase in
    ACCEPTED: the function is called once, the promise resolves with that
    message and the data the function returned, the message is recorded,
    the collector is stopped and the timeout cleared; nothing is sent, the
    children are kept and the later messages are left unread. *)
Theorem accepted_message_resolves_phase
  channel data func m c st newData w c' st' :
  content m <> "exit" ->
  func m data (world st) = (Normal newData, w) ->
  promise c = Pending ->
  onMessage (listeners channel data) func data m c st = (c', st') ->
  promise c' = Resolved {| message := Some m; data := newData |}
  /\ log st' = log st ++ [Eff_function m; Eff_emit (Ev_accept m newData);
                          Eff_emit Ev_stop; Eff_clearTimeout]
  /\ world st' = w
  /\ timer c' = None
  /\ children (this c') = children (this c)
  /\ messages (this c') = messages (this c) ++ [m]
  /\ (forall t rest st0,
      st = set_inbox rest (set_clock (Z.max (clock st0) t) st0) ->
      due (timer c) t = None ->
      pump (listeners channel data) func data ((t, m) :: rest) c st0 = (c', st')
      /\ inbox st' = rest).
Proof.
  intros Hexit Hf Hp Hm.
  destruct (onMessage_accept _ _ _ _ _ _ _ _ _ _ Hexit Hf Hm)
    as (_ & Hlog & Hw & Ht & Hch & Hms & Hres & Hpump).
  split; [exact (Hres Hp)|]. split; [exact Hlog|]. split; [exact Hw|].
  split; [exact Ht|]. split; [exact Hch|]. split; [exact Hms|].
  intros t rest st0 E Hd. split; [exact (Hpump t rest st0 E Hp Hd)|].
  destruct (onMessage_frame _ _ _ _ _ _ _ _ Hm) as (_ & Hi & _).
  rewrite Hi, E. reflexivity.
Qed.

(** X2. When the timeout fires on a pending phase, the phase ends in
    INACTIVE: ['stop'] then ['inactivity'] are emitted, the children are
    dropped and the inactivity string is sent; the promise resolves with
    the sent message and the data the phase started with, or is rejected
    with the error of the channel. The collection function is not called. *)
Theorem timeout_ends_phase_inactive channel data c st c' st' :
  promise c = Pending ->
  onTimeout (listeners channel data) c st = (c', st') ->
  log st' = log st ++ [Eff_emit Ev_stop; Eff_emit Ev_inactivity;
                       Eff_send (textOnly STRINGS_inactivity)]
  /\ children (this c') = []
  /\ timer c' = None
  /\ match send channel (textOnly STRINGS_inactivity) (world st) with
     | (inr sent, w) =>
         promise c' = Resolved {| message := Some sent; data := data |}
         /\ messages (this c') = messages (this c) ++ [sent]
         /\ world st' = w
     | (inl err, w) =>
         promise c' = Rejected (JsError err)
         /\ messages (this c') = messages (this c)
         /\ world st' = w
     end
  /\ (forall func deadline,
      timer c = Some deadline ->
      pump (listeners channel data) func data [] c st
      = onTimeout (listeners channel data) c
          (set_clock (Z.max (clock st) deadline) st)).
Proof.
  intros Hp Hm.
  assert (forall func deadline,
      timer c = Some deadline ->
      pump (listeners channel data) func data [] c st
      = onTimeout (listeners channel data) c
          (set_clock (Z.max (clock st) deadline) st)) as Hpump.
  { intros func deadline Ht. cbn [pump]. now rewrite Hp, Ht. }
  destruct (onTimeout_effects _ _ _ _ _ _ Hm) as (Hlog & Ht & Hch & _).
  split; [exact Hlog|]. split; [exact Hch|]. split; [exact Ht|].
  split; [|exact Hpump]. clear Hpump.
  revert Hm. unfold onTimeout. step_handlers.
  destruct (send channel (textOnly STRINGS_inactivity) (world st)) as [[err|sent] w];
    intros [= <- <-]; settled; cbn [promise world set_world record].
  - rewrite promise_reject by exact Hp. repeat split.
  - rewrite promise_resolve by exact Hp. repeat split.
Qed.

(** X3. [terminateHere] leaves no next phase: whether its send succeeds or
    fails, the step is left without children, so that [getNext] on it
    returns null for every data value and evaluates nothing. It sends the
    termination string and nothing else, stores the message that was sent,
    and is what the ['exit'] and ['inactivity'] listeners of [collect] run
    before they settle the promise. *)
Theorem terminateHere_leaves_no_next_phase
  (p : Phase D W) channel terminateString st :
  let '(r, p', st') := terminateHere p channel terminateString st in
  children p' = []
  /\ (forall data st0, getNext p' data st0 = (Returned None, st0))
  /\ log st' = log st ++ [Eff_send (textOnly terminateString)]
  /\ messages p' = match r with
                   | inr sent => messages p ++ [sent]
                   | inl _ => messages p
                   end
  /\ function p' = function p /\ condition p' = condition p
  /\ duration p' = duration p /\ formatGenerator p' = formatGenerator p
  /\ (forall data c,
      this c = p ->
      terminate channel data terminateString c st
      = match r with
        | inr sent =>
            (resolve {| message := Some sent; data := data |}
               {| this := p'; timer := timer c; promise := promise c |}, st')
        | inl err =>
            (reject (JsError err)
               {| this := p'; timer := timer c; promise := promise c |}, st')
        end).
Proof.
  unfold terminateHere, terminate, channel_send. cbn [world record].
  destruct (send channel (textOnly terminateString) (world st)) as [[err|sent] w];
    cbn [children messages function condition duration formatGenerator
         setChildren storeMessage log set_world record];
    repeat (split; [reflexivity|]);
    intros data c <-; reflexivity.
Qed.

(** What one message adds to [messages]. *)
Lemma onMessage_messages channel data func m c st c' st' :
  onMessage (listeners channel data) func data m c st = (c', st') ->
  exists more, messages (this c') = messages (this c) ++ more.
Proof.
  unfold onMessage, handleMessage.
  destruct (String.eqb (content m) "exit"); step_handlers.
  - destruct (send channel (textOnly STRINGS_exit) (world st)) as [[err|sent] w];
      intros [= <- _]; settled; eexists; try rewrite <- app_assoc; reflexivity.
  - destruct (func m data (world st)) as [[newData|[s|e]] w]; cbn [world set_world].
    + intros [= <- _]; settled; eexists; reflexivity.
    + destruct (send channel (textOnly (invalidFeedback (Rejection s))) w)
        as [[err|sent] w']; intros [= <- _]; settled; eexists;
        try rewrite <- app_assoc; reflexivity.
    + intros [= <- _]; settled; eexists; reflexivity.
Qed.

Lemma onTimeout_messages channel data c st c' st' :
  onTimeout (listeners channel data) c st = (c', st') ->
  exists more, messages (this c') = messages (this c) ++ more.
Proof.
  unfold onTimeout. step_handlers.
  destruct (send channel (textOnly STRINGS_inactivity) (world st)) as [[err|sent] w];
    intros [= <- _]; settled; eexists; [symmetry; apply app_nil_r | reflexivity].
Qed.

Lemma pump_messages channel data func incoming : forall c st c' st',
  pump (listeners channel data) func data incoming c st = (c', st') ->
  exists more, messages (this c') = messages (this c) ++ more.
Proof.
  assert (forall c, exists more : list MessageInterface,
             messages (this c) = messages (this c) ++ more) as same.
  { intros c. exists []. now rewrite app_nil_r. }
  induction incoming as [|[t m] rest IH]; intros c st c' st'; cbn [pump].
  - destruct (promise c); try (intros [= <- <-]; apply same).
    destruct (timer c); [apply onTimeout_messages | intros [= <- <-]; apply same].
  - destruct (promise c); try (intros [= <- <-]; apply same).
    destruct (due (timer c) t); [apply onTimeout_messages|].
    destruct (onMessage (listeners channel data) func data m c
                (set_inbox rest (set_clock (Z.max (clock st) t) st)))
      as [c1 st1] eqn:Hm.
    intros H. destruct (onMessage_messages _ _ _ _ _ _ _ _ Hm) as [m1 E1].
    destruct (IH _ _ _ _ H) as [m2 E2]. exists (m1 ++ m2).
    now rewrite E2, E1, app_assoc.
Qed.

(** X4. A whole [collect] only appends to the [messages] of its step, and
    leaves its format generator, duration, function and condition as they
    were; its children are kept or dropped altogether. *)
Theorem collect_appends_to_messages (p : Phase D W) channel data trig st :
  let c' := fst (collect p channel data trig st) in
  (exists more, messages (this c') = messages p ++ more)
  /\ formatGenerator (this c') = formatGenerator p
  /\ duration (this c') = duration p
  /\ function (this c') = function p
  /\ condition (this c') = condition p
  /\ (children (this c') = children p \/ children (this c') = []).
Proof.
  cbv zeta. destruct (collect p channel data trig st) as [c' st'] eqn:Hc.
  cbn [fst]. destruct (collect_frame _ _ _ _ _ _ _ Hc) as [_ Hs].
  split; [|exact Hs]. revert Hc. unfold collect.
  destruct (function p) as [func|].
  - unfold handleCollector. destruct (nonzero (duration p)); intros H;
      apply (pump_messages _ _ _ _ _ _ _ _ H).
  - intros [= <- _]. exists []. cbn. now rewrite app_nil_r.
Qed.

Lemma menu_ended_later st st1 st' (delta : list (Effect D)) :
  log st1 = log st ++ delta -> menu_ended st1 st' -> menu_ended st st'.
Proof.
  intros E (before & e & after & E' & He).
  exists (delta ++ before), e, after. split; [|exact He].
  now rewrite E', E, <- !app_assoc.
Qed.

Lemma menu_ended_earlier st st1 st' (delta : list (Effect D)) :
  menu_ended st st1 -> log st' = log st1 ++ delta -> menu_ended st st'.
Proof.
  intros (before & e & after & E' & He) E.
  exists before, e, (after ++ delta). split; [|exact He].
  rewrite E, E', <- !app_assoc. reflexivity.
Qed.

Lemma onMessage_children channel data func m c st c' st' :
  onMessage (listeners channel data) func data m c st = (c', st') ->
  children (this c') = children (this c) \/ menu_ended st st'.
Proof.
  unfold onMessage, handleMessage.
  destruct (String.eqb (content m) "exit"); step_handlers.
  - destruct (send channel (textOnly STRINGS_exit) (world st)) as [[err|sent] w];
      intros [= <- <-]; right; exists [], (Eff_emit (Ev_exit m)); eexists;
      (split; [cbn; repeat rewrite <- app_assoc; reflexivity | exact I]).
  - destruct (func m data (world st)) as [[newData|[s|e]] w]; cbn [world set_world].
    + intros [= <- _]; settled; now left.
    + destruct (send channel (textOnly (invalidFeedback (Rejection s))) w)
        as [[err|sent] w']; intros [= <- _]; settled; now left.
    + intros [= <- _]; settled; now left.
Qed.

Lemma onTimeout_ends channel data c st c' st' :
  onTimeout (listeners channel data) c st = (c', st') -> menu_ended st st'.
Proof.
  intros H. destruct (onTimeout_effects _ _ _ _ _ _ H) as (E & _).
  exists [Eff_emit Ev_stop], (Eff_emit Ev_inactivity); eexists.
  split; [exact E | exact I].
Qed.

Lemma pump_children channel data func incoming : forall c st c' st',
  pump (listeners channel data) func data incoming c st = (c', st') ->
  children (this c') = children (this c) \/ menu_ended st st'.
Proof.
  induction incoming as [|[t m] rest IH]; intros c st c' st'; cbn [pump].
  - destruct (promise c); try (intros [= <- <-]; now left).
    destruct (timer c); [|intros [= <- <-]; now left].
    intros H. right. apply (onTimeout_ends _ _ _ _ _ _ H).
  - destruct (promise c); try (intros [= <- <-]; now left).
    destruct (due (timer c) t).
    + intros H. right. apply (onTimeout_ends _ _ _ _ _ _ H).
    + destruct (onMessage (listeners channel data) func data m c
                  (set_inbox rest (set_clock (Z.max (clock st) t) st)))
        as [c1 st1] eqn:Hm.
      intros H.
      destruct (onMessage_effects _ _ _ _ _ _ _ _ Hm) as ((d1 & E1 & _) & _).
      destruct (pump_effects _ _ _ _ _ _ _ _ H) as ((d2 & E2 & _) & _).
      destruct (onMessage_children _ _ _ _ _ _ _ _ Hm) as [K1|K1];
        destruct (IH _ _ _ _ H) as [K2|K2].
      * left. congruence.
      * right. apply (menu_ended_later _ st1 _ d1); assumption.
      * right. apply (menu_ended_earlier st st1 _ d2); assumption.
      * right. apply (menu_ended_later _ st1 _ d1); assumption.
Qed.

(** X5. The children of a step are dropped by the exit token and by
    inactivity only: when the children after [collect] are not those
    before, ['exit'] or ['inactivity'] was emitted during the phase. An
    accepted message, a rejection and an error all keep them. *)
Theorem children_dropped_only_on_exit_or_inactivity
  (p : Phase D W) channel data trig st :
  let r := collect p channel data trig st in
  children (this (fst r)) = children p \/ menu_ended st (snd r).
Proof.
  cbv zeta. unfold collect. destruct (function p) as [func|]; [|now left].
  unfold handleCollector.
  destruct (nonzero (duration p));
    match goal with
    | |- context [pump ?e ?f ?d ?i ?c ?s] =>
        destruct (pump e f d i c s) as [c' st'] eqn:H
    end;
    cbn [fst snd]; destruct (pump_children _ _ _ _ _ _ _ _ H) as [K|K];
    [now left | right | now left | right].
  - eapply menu_ended_later; [|exact K].
    cbn [log record]. rewrite <- app_assoc. reflexivity.
  - eapply menu_ended_later; [|exact K]. reflexivity.
Qed.

(** X6. Every message whose content is not exactly the exit token is
    given to the collection function, once, before anything else happens
    for it; what follows is one of ['accept'], ['reject'] and ['error'],
    for that message. *)
Theorem other_messages_reach_the_function_once channel data func m c st c' st' :
  content m <> "exit" ->
  onMessage (listeners channel data) func data m c st = (c', st') ->
  exists ev rest,
    log st' = log st ++ Eff_function m :: Eff_emit ev :: rest
    /\ Forall (fun e => ~ is_function_call e) rest
    /\ match ev, fst (func m data (world st)) with
       | Ev_accept m' d, Normal d' => m' = m /\ d = d'
       | Ev_reject m' e, Throw (Rejection s) => m' = m /\ e = Rejection s
       | Ev_error m' e, Throw (JsError s) => m' = m /\ e = JsError s
       | _, _ => False
       end.
Proof.
  intros Hexit. unfold onMessage, handleMessage.
  rewrite (exit_eqb_false _ Hexit). step_handlers.
  destruct (func m data (world st)) as [[newData|[s|e]] w]; cbn [world set_world fst].
  - intros [= _ <-]. eexists; eexists. cbn [log record set_world].
    split; [repeat rewrite <- app_assoc; cbn [app]; reflexivity|].
    split; [repeat constructor; intros []|]. split; reflexivity.
  - destruct (send channel (textOnly (invalidFeedback (Rejection s))) w)
      as [[err|sent] w']; intros [= _ <-]; eexists; eexists; cbn [log record set_world];
      (split; [repeat rewrite <- app_assoc; cbn [app]; reflexivity|]);
      (split; [repeat constructor; intros []|]); split; reflexivity.
  - intros [= _ <-]. eexists; eexists. cbn [log record set_world].
    split; [repeat rewrite <- app_assoc; cbn [app]; reflexivity|].
    split; [repeat constructor; intros []|]. split; reflexivity.
Qed.

(** A message that leaves the promise pending leaves the timeout armed. *)
Lemma onMessage_pending channel data func m c st c' st' :
  onMessage (listeners channel data) func data m c st = (c', st') ->
  promise c = Pending -> promise c' = Pending -> timer c' = timer c.
Proof.
  unfold onMessage, handleMessage.
  destruct (String.eqb (content m) "exit"); step_handlers.
  - destruct (send channel (textOnly STRINGS_exit) (world st)) as [[err|sent] w];
      intros [= <- _] Hp; cbn [promise];
      rewrite ?promise_resolve, ?promise_reject by exact Hp; discriminate.
  - destruct (func m data (world st)) as [[newData|[s|e]] w]; cbn [world set_world].
    + intros [= <- _] Hp; cbn [promise]. rewrite promise_resolve by exact Hp.
      discriminate.
    + destruct (send channel (textOnly (invalidFeedback (Rejection s))) w)
        as [[err|sent] w']; intros [= <- _] Hp _; settled; reflexivity.
    + intros [= <- _] Hp; cbn [promise]. rewrite promise_reject by exact Hp.
      discriminate.
Qed.

Lemma pump_timed channel data func incoming : forall c st c' st' deadline,
  timer c = Some deadline ->
  pump (listeners channel data) func data incoming c st = (c', st') ->
  promise c' <> Pending.
Proof.
  induction incoming as [|[t m] rest IH]; intros c st c' st' deadline Ht; cbn [pump].
  - destruct (promise c) eqn:Hp; try (intros [= <- _]; congruence).
    rewrite Ht. intros H.
    destruct (onTimeout_effects _ _ _ _ _ _ H) as (_ & _ & _ & _ & Hs). auto.
  - destruct (promise c) eqn:Hp; try (intros [= <- _]; congruence).
    destruct (due (timer c) t).
    + intros H.
      destruct (onTimeout_effects _ _ _ _ _ _ H) as (_ & _ & _ & _ & Hs). auto.
    + destruct (onMessage (listeners channel data) func data m c
                  (set_inbox rest (set_clock (Z.max (clock st) t) st)))
        as [c1 st1] eqn:Hm.
      intros H. destruct (promise c1) eqn:Hp1.
      * apply (IH _ _ _ _ deadline) in H; [exact H|].
        rewrite (onMessage_pending _ _ _ _ _ _ _ _ Hm Hp Hp1). exact Ht.
      * rewrite pump_settled in H by congruence. injection H as <- _. congruence.
      * rewrite pump_settled in H by congruence. injection H as <- _. congruence.
Qed.

Lemma collect_settles (p : Phase D W) channel data trig st :
  duration p <> 0 -> promise (fst (collect p channel data trig st)) <> Pending.
Proof.
  intros Hd. unfold collect. destruct (function p) as [func|]; [|discriminate].
  unfold handleCollector, nonzero. apply Z.eqb_neq in Hd. rewrite Hd. cbn [negb].
  match goal with
  | |- context [pump ?e ?f ?d ?i ?c ?s] =>
      destruct (pump e f d i c s) as [c' st'] eqn:Hp
  end.
  cbn [fst]. eapply pump_timed; [|exact Hp]. reflexivity.
Qed.

Lemma await_collect_settles (p : Phase D W) channel data st :
  duration p <> 0 -> fst (await_collect p channel data st) <> Waiting.
Proof.
  intros Hd. pose proof (collect_settles p channel data None st Hd) as H.
  unfold await_collect.
  destruct (collect p channel data None st) as [c' st']. cbn [fst] in *.
  destruct (promise c'); cbn; congruence.
Qed.

(** X7. A phase whose duration is not zero always settles: whatever
    messages arrive, and even when none does, its promise ends resolved or
    rejected, so that the runner never waits at such a step. *)
Theorem timed_phase_always_settles (p : Phase D W) channel data trig st :
  duration p <> 0 ->
  promise (fst (collect p channel data trig st)) <> Pending
  /\ fst (await_collect p channel data st) <> Waiting.
Proof.
  intros Hd. split; [now apply collect_settles | now apply await_collect_settles].
Qed.

End CollectingMore.

(** ** More on validation and selection *)
Section SelectionMore.

Context {D W : Type}.
Implicit Types (st : State D W) (data : D) (p n root : Phase D W).

(** X8. Validity passes to subtrees: every step reachable from a valid
    root is itself the root of a valid tree, so that a run may as well be
    started from it. *)
Theorem valid_subtree root n :
  valid root = true -> reachable root n -> valid n = true.
Proof.
  intros Hv Hn. apply valid_iff_conditioned. intros k Hk.
  apply (proj1 (valid_iff_conditioned root) Hv).
  apply (reachable_trans _ _ _ Hn Hk).
Qed.

Lemma node_children_nodeOf p : node_children (nodeOf p) = map nodeOf (children p).
Proof. destruct p; reflexivity. Qed.

Lemma node_getNext_from_nodeOf data (cs : list (Phase D W)) : forall i st,
  node_getNext_from i (map nodeOf cs) data st
  = (map_outcome (option_map nodeOf) (fst (getNext_from i cs data st)),
     snd (getNext_from i cs data st)).
Proof.
  induction cs as [|c cs IH]; intros i st; [reflexivity|].
  cbn [map node_getNext_from getNext_from]. rewrite prompt_nodeOf.
  destruct (condition c) as [cond|]; [|reflexivity].
  unfold bind. destruct (await_condition i cond data st) as [[[|]|e| |] st1];
    try reflexivity.
  apply IH.
Qed.

(** X9. The two selections agree: [PromptNode.getNext] on the node of a
    step selects the node of the step that [Phase.getNext] selects, with
    the same calls of conditions and the same final state; both return
    null together and both fail together. *)
Theorem node_getNext_agrees_with_getNext p data st :
  node_getNext (nodeOf p) data st
  = (map_outcome (option_map nodeOf) (fst (getNext p data st)),
     snd (getNext p data st)).
Proof.
  unfold node_getNext, getNext. rewrite node_children_nodeOf.
  apply node_getNext_from_nodeOf.
Qed.

(** X10. In a valid tree a branch is never taken by default: when a step
    with more than one child selects a child, that child has a condition,
    and the condition was evaluated and answered true. *)
Theorem valid_branching_selects_by_condition root n data st c st' :
  valid root = true -> reachable root n ->
  (1 < length (children n))%nat ->
  getNext n data st = (Returned (Some c), st') ->
  In c (children n)
  /\ exists cond i st1,
       condition c = Some cond
       /\ call_condition i cond data st1 = (Normal true, st').
Proof.
  intros Hv Hn Hlen Hg.
  pose proof (select_from_cases condition data (children n) 0 st) as Hcases.
  rewrite <- getNext_select, Hg in Hcases.
  destruct Hcases as (pre & post & st1 & E & _ & Hadm).
  assert (In c (children n)) as Hin.
  { rewrite E. apply in_or_app. right. now left. }
  split; [exact Hin|].
  pose proof (proj1 (valid_iff_conditioned root) Hv n Hn Hlen c Hin) as Hc.
  destruct Hadm as [[Hnone _] | (cond & Hcond & Hcall)]; [contradiction|].
  exists cond, (0 + length pre)%nat, st1. split; assumption.
Qed.

Lemma select_from_quiet {X : Type} (cond_of : X -> option (PhaseCondition D W))
  data xs : forall i st r st',
  select_from cond_of i xs data st = (r, st') ->
  inbox st' = inbox st /\ clock st' = clock st
  /\ adds is_condition st st' /\ r <> Waiting.
Proof.
  induction xs as [|x xs IH]; intros i st r st'; cbn [select_from].
  - intros [= <- <-]. repeat split; [apply adds_refl | discriminate].
  - destruct (cond_of x) as [cond|].
    + unfold bind, await_condition, call_condition. cbn [world record].
      destruct (cond data (world st)) as [[[|]|e] w].
      * intros [= <- <-]. repeat split; [|discriminate].
        exists [Eff_condition i]. split; [reflexivity | repeat constructor].
      * intros H. destruct (IH _ _ _ _ H) as (Hi & Hc & Ha & Hw).
        repeat split; try assumption.
        eapply adds_trans; [|exact Ha].
        exists [Eff_condition i]. split; [reflexivity | repeat constructor].
      * intros [= <- <-]. repeat split; [|discriminate].
        exists [Eff_condition i]. split; [reflexivity | repeat constructor].
    + intros [= <- <-]. repeat split; [apply adds_refl | discriminate].
Qed.

(** X11. [getNext] does nothing but evaluate conditions: it sends nothing,
    creates no collector and calls no collection function, it leaves the
    trace, the pending messages and the clock alone, and the step it
    returns is one of the children; it never waits. *)
Theorem getNext_only_evaluates_conditions p data st :
  let r := getNext p data st in
  ran (snd r) = ran st /\ inbox (snd r) = inbox st /\ clock (snd r) = clock st
  /\ adds is_condition st (snd r)
  /\ (forall c, fst r = Returned (Some c) -> In c (children p))
  /\ fst r <> Waiting.
Proof.
  cbv zeta. destruct (getNext p data st) as [r st'] eqn:H. cbn [fst snd].
  destruct (getNext_frame _ _ _ _ _ H) as [Hr Hin].
  rewrite getNext_select in H.
  destruct (select_from_quiet _ _ _ _ _ _ _ H) as (Hi & Hc & Ha & Hw).
  repeat split; assumption.
Qed.

End SelectionMore.

(** ** The methods of a node *)
Section Nodes.

Context {D W : Type}.
Implicit Types (st : State D W) (data : D) (this node : PromptNode D W).

Lemma node_getNext_from_app data (xs ys : list (PromptNode D W)) : forall i st,
  node_getNext_from i (xs ++ ys) data st
  = match node_getNext_from i xs data st with
    | (Returned None, st1) => node_getNext_from (i + length xs) ys data st1
    | other => other
    end.
Proof.
  induction xs as [|x xs IH]; intros i st.
  - cbn. now rewrite Nat.add_0_r.
  - cbn [app node_getNext_from length].
    destruct (condition (prompt x)) as [cond|]; [|reflexivity].
    unfold bind. destruct (await_condition i cond data st) as [[[|]|e| |] st1];
      try reflexivity.
    rewrite IH, Nat.add_succ_r. reflexivity.
Qed.

(** X12. Adding a child does not change a selection that was made: the
    children are tried in the order they were added, so a node that
    selected a child selects the same one after [addChild], with the same
    calls; only when no child was eligible is the new child tried, after
    all the others. *)
Theorem addChild_keeps_selection this node data st :
  node_getNext (node_addChild node this) data st
  = match node_getNext this data st with
    | (Returned None, st1) =>
        node_getNext_from (length (node_children this)) [node] data st1
    | other => other
    end.
Proof.
  unfold node_getNext, node_addChild. cbn [node_children].
  apply node_getNext_from_app.
Qed.

Lemma hasValidChildren_forallb this :
  hasValidChildren this
  = (length (node_children this) <=? 1)%nat
    || forallb (fun child => truthy (condition (prompt child))) (node_children this).
Proof.
  unfold hasValidChildren. rewrite hasValidChildren_loop.
  destruct (length (node_children this) <=? 1)%nat; reflexivity.
Qed.

(** X13. A second child makes conditions compulsory: after [addChild] on
    a node that already has a child, [hasValidChildren] holds exactly when
    every child, old and new, has a condition, whatever it answered before;
    after [addChild] on a node without children it holds. *)
Theorem addChild_requires_conditions this node :
  (node_children this = [] -> hasValidChildren (node_addChild node this) = true)
  /\ (node_children this <> [] ->
      hasValidChildren (node_addChild node this)
      = forallb (fun child => truthy (condition (prompt child))) (node_children this)
        && truthy (condition (prompt node))).
Proof.
  rewrite hasValidChildren_forallb. unfold node_addChild. cbn [node_children].
  rewrite length_app, forallb_app. cbn [length forallb]. split.
  - intros ->. reflexivity.
  - intros Hne. destruct (node_children this) as [|x xs]; [congruence|].
    cbn [length]. replace (S (length xs) + 1 <=? 1)%nat with false
      by (symmetry; apply Nat.leb_gt; lia).
    cbn [orb]. now rewrite andb_true_r.
Qed.

(** X14. [setChildren] replaces the children and [addChild] appends one:
    adding the nodes of a list one by one to a node emptied by
    [setChildren []] gives the node that [setChildren] gives for the whole
    list, a later [setChildren] overrides an earlier one, and neither
    touches the prompt. *)
Theorem children_built_by_addChild this (nodes earlier : list (PromptNode D W)) :
  fold_left (fun n node => node_addChild node n) nodes (node_setChildren [] this)
  = node_setChildren nodes this
  /\ node_setChildren nodes (node_setChildren earlier this) = node_setChildren nodes this
  /\ prompt (node_setChildren nodes this) = prompt this
  /\ node_children (node_setChildren nodes this) = nodes.
Proof.
  split; [|repeat split].
  assert (forall (acc : list (PromptNode D W)),
           fold_left (fun n node => node_addChild node n) nodes
             (node_setChildren acc this)
           = node_setChildren (acc ++ nodes) this) as H.
  { induction nodes as [|x xs IH]; intros acc; cbn [fold_left].
    - now rewrite app_nil_r.
    - unfold node_addChild at 2. cbn [prompt node_children node_setChildren].
      change {| prompt := prompt this; node_children := acc ++ [x] |}
        with (node_setChildren (acc ++ [x]) this).
      rewrite IH, <- app_assoc. reflexivity. }
  apply (H []).
Qed.

End Nodes.

(** ** More on the traversal *)
Section TraversalMore.

Context {D W : Type} {JS : JsObject D}.
Implicit Types (st : State D W) (p q root : Phase D W) (data d : D)
  (channel : ChannelInterface W) (runner : PromptRunner D).

Lemma descending_weaken (l : list (Phase D W)) : forall h h',
  (h <= h')%nat -> descending h l -> descending h' l.
Proof. destruct l as [|x l]; cbn; [auto|]. intros h h' Hle [H1 H2]. split; [lia|auto]. Qed.

Lemma descending_length (l : list (Phase D W)) : forall h,
  descending h l -> (length l <= h)%nat.
Proof.
  induction l as [|x l IH]; cbn; intros h; [lia|].
  intros [H1 H2]. specialize (IH _ H2). lia.
Qed.

Lemma descending_below (l : list (Phase D W)) : forall h,
  descending h l -> Forall (fun x => (height x < h)%nat) l.
Proof.
  induction l as [|x l IH]; cbn; intros h; [constructor|].
  intros [H1 H2]. constructor; [exact H1|].
  eapply Forall_impl; [|exact (IH _ H2)]. cbn. intros; lia.
Qed.

Lemma loop_descending channel : forall fuel p d st r st',
  loop fuel channel p d st = (r, st') ->
  exists tail, ran st' = ran st ++ tail /\ descending (height p) tail.
Proof.
  assert (forall p st st', ran st' = ran st ->
            exists tail, ran st' = ran st ++ tail /\ descending (height p) tail) as same.
  { intros p st st' E. exists []. rewrite app_nil_r. split; [exact E | exact I]. }
  induction fuel as [|fuel IH]; intros p d st r st'.
  - intros [= <- <-]. now apply same.
  - rewrite loop_turn.
    destruct (await_collect p channel d st) as [o1 st1] eqn:Hc.
    pose proof (await_collect_ran _ _ _ _ _ _ Hc) as Hr1.
    destruct o1 as [[promptData p1]|e| |];
      try (intros [= <- <-]; now apply same).
    destruct (getNext p1 promptData st1) as [o2 st2] eqn:Hn.
    destruct (getNext_frame _ _ _ _ _ Hn) as [Hr2 _].
    destruct o2 as [[nextPrompt|]|e| |];
      try (intros [= <- <-]; apply same; congruence).
    destruct (sendMessage nextPrompt channel promptData st2) as [o3 st3] eqn:Hs.
    pose proof (sendMessage_ran _ _ _ _ _ _ Hs) as Hr3.
    destruct o3 as [sent|e| |];
      try (intros [= <- <-]; apply same; congruence).
    pose proof (next_is_lower _ _ _ _ _ _ _ _ _ _ _ Hc Hn Hs) as Hlow.
    intros H. destruct (IH _ _ _ _ _ H) as (tail & E & F).
    exists (snd sent :: tail). split.
    + rewrite E. cbn [ran push_ran]. rewrite Hr3, Hr2, Hr1, <- app_assoc. reflexivity.
    + split; assumption.
Qed.

Lemma execute_ran runner root channel st :
  exists tail,
    ran (snd (execute runner root channel st)) = ran st ++ root :: tail
    /\ descending (height root) tail.
Proof.
  unfold execute, sendUserFormatMessage, bind, push.
  destruct (sendMessage root channel (initialData runner) (push_ran root st))
    as [o st1] eqn:Hs.
  pose proof (sendMessage_ran _ _ _ _ _ _ Hs) as Hr. cbn [ran push_ran] in Hr.
  destruct o as [sent|e| |]; cbn [snd];
    try (exists []; split; [exact Hr | exact I]).
  destruct (sendMessage_frame _ _ _ _ _ _ Hs) as [_ E].
  destruct (loop (S (height root)) channel (snd sent) (initialData runner) st1)
    as [r st'] eqn:Hl.
  destruct (loop_descending _ _ _ _ _ _ _ Hl) as (tail & Et & F).
  rewrite E, height_storeMessage in F. cbn [snd].
  exists tail. split; [rewrite Et, Hr, <- app_assoc; reflexivity | exact F].
Qed.

(** X15. The trace of a run goes down the tree: [execute] always ends (the
    bound of its loop is never met), it appends the root and then steps of
    strictly decreasing height, so that it records at most one step per
    level of the tree and never the root again. *)
Theorem execute_trace_descends runner root channel st :
  let r := execute runner root channel st in
  fst r <> OutOfFuel
  /\ exists tail,
       ran (snd r) = ran st ++ root :: tail
       /\ descending (height root) tail
       /\ (length tail <= height root)%nat
       /\ ~ In root tail.
Proof.
  cbv zeta. split; [apply execute_fuel|].
  destruct (execute_ran runner root channel st) as (tail & E & F).
  exists tail. split; [exact E|]. split; [exact F|].
  split; [apply descending_length; exact F|].
  intros Hin. pose proof (descending_below _ _ F) as Hb.
  rewrite Forall_forall in Hb. specialize (Hb _ Hin). lia.
Qed.

(** X16. A failed send and the trace. The root is recorded before its
    message is sent: when that send fails, [execute] throws the error of
    the channel and the root is in the trace all the same. A later step is
    recorded after its message is sent: when that send fails the loop
    throws the error and the step is not in the trace. *)
Theorem failed_send_and_the_trace channel :
  (forall runner root st err w,
      send channel (formatGenerator root (initialData runner)) (world st) = (inl err, w) ->
      let r := execute runner root channel st in
      fst r = Threw (JsError err)
      /\ ran (snd r) = ran st ++ [root]
      /\ log (snd r) = log st ++ [Eff_send (formatGenerator root (initialData runner))])
  /\ (forall fuel p d st promptData p1 st1 nextPrompt st2 err w,
      await_collect p channel d st = (Returned (promptData, p1), st1) ->
      getNext p1 promptData st1 = (Returned (Some nextPrompt), st2) ->
      send channel (formatGenerator nextPrompt promptData) (world st2) = (inl err, w) ->
      let r := loop (S fuel) channel p d st in
      fst r = Threw (JsError err)
      /\ ran (snd r) = ran st
      /\ log (snd r) = log st2 ++ [Eff_send (formatGenerator nextPrompt promptData)]).
Proof.
  split.
  - intros runner root st err w Hsend. cbv zeta.
    unfold execute, sendUserFormatMessage, bind, push, sendMessage, bind, await_send, channel_send.
    cbn [world record push_ran]. rewrite Hsend. cbn. repeat split.
  - intros fuel p d st promptData p1 st1 nextPrompt st2 err w Hc Hn Hsend. cbv zeta.
    rewrite loop_turn, Hc, Hn.
    destruct (await_collect_frame _ _ _ _ _ _ _ Hc) as [Hr1 _].
    destruct (getNext_frame _ _ _ _ _ Hn) as [Hr2 _].
    unfold sendMessage, bind, await_send, channel_send.
    cbn [world record]. rewrite Hsend. cbn. repeat split. congruence.
Qed.

Lemma collectors_app (l1 l2 : list (Effect D)) :
  collectors (l1 ++ l2) = (collectors l1 + collectors l2)%nat.
Proof. unfold collectors. now rewrite filter_app, length_app. Qed.

Lemma collectors_quiet (delta : list (Effect D)) :
  Forall no_collector delta -> collectors delta = O /\ armings delta = [].
Proof.
  induction 1 as [|e l He _ [IH1 IH2]]; [split; reflexivity|].
  destruct e; cbn in He; try tauto; split; assumption.
Qed.

Lemma adds_quiet st st' :
  adds no_collector st st' ->
  collectors (log st') = collectors (log st)
  /\ armings (log st') = armings (log st).
Proof.
  intros (d & -> & F). destruct (collectors_quiet _ F) as [E1 E2].
  rewrite collectors_app, armings_app, E1, E2, app_nil_r. split; [lia|reflexivity].
Qed.

Lemma pump_in_phase channel data func incoming : forall c st c' st',
  pump (listeners channel data) func data incoming c st = (c', st') ->
  adds no_collector st st'.
Proof.
  assert (forall e : Effect D, by_message e -> no_collector e) as weaker
    by (intros []; cbn; auto).
  induction incoming as [|[t m] rest IH]; intros c st c' st'; cbn [pump].
  - destruct (promise c); try (intros [= <- <-]; apply adds_refl).
    destruct (timer c); [|intros [= <- <-]; apply adds_refl].
    intros H. destruct (onTimeout_effects _ _ _ _ _ _ H) as (E & _).
    eexists. split; [exact E | repeat constructor].
  - destruct (promise c); try (intros [= <- <-]; apply adds_refl).
    destruct (due (timer c) t).
    + intros H. destruct (onTimeout_effects _ _ _ _ _ _ H) as (E & _).
      eexists. split; [exact E | repeat constructor].
    + destruct (onMessage (listeners channel data) func data m c
                  (set_inbox rest (set_clock (Z.max (clock st) t) st)))
        as [c1 st1] eqn:Hm.
      intros H. destruct (onMessage_effects _ _ _ _ _ _ _ _ Hm) as (Ha & _).
      eapply adds_trans; [|exact (IH _ _ _ _ H)].
      apply (adds_weaken _ _ _ _ weaker Ha).
Qed.

(** What a whole [collect] adds: one collector when the step has a
    function, none otherwise, and at most one timeout. *)
Lemma collect_counts p channel data trig st c' st' :
  collect p channel data trig st = (c', st') ->
  collectors (log st') = (collectors (log st) + if truthy (function p) then 1 else 0)%nat
  /\ (length (armings (log st'))
      <= length (armings (log st)) + if truthy (function p) then 1 else 0)%nat.
Proof.
  unfold collect. destruct (function p) as [func|].
  - unfold handleCollector. destruct (nonzero (duration p)); intros H;
      destruct (adds_quiet _ _ (pump_in_phase _ _ _ _ _ _ _ _ H)) as [E1 E2];
      rewrite E1, E2; cbn [log record];
      rewrite ?collectors_app, ?armings_app, ?length_app; cbn; lia.
  - intros [= _ <-]. cbn. lia.
Qed.

Lemma sendMessage_log p channel d st o st' :
  sendMessage p channel d st = (o, st') ->
  log st' = log st ++ [Eff_send (formatGenerator p d)].
Proof.
  unfold sendMessage, bind, await_send, channel_send. cbn [world record].
  destruct (send channel (formatGenerator p d) (world st)) as [[err|m] w];
    intros [= _ <-]; reflexivity.
Qed.

Lemma loop_counts channel : forall fuel p d st r st',
  loop fuel channel p d st = (r, st') ->
  (collectors (log st') + length (ran st)
   <= collectors (log st) + length (ran st') + 1)%nat
  /\ (length (armings (log st')) + collectors (log st)
      <= length (armings (log st)) + collectors (log st'))%nat.
Proof.
  induction fuel as [|fuel IH]; intros p d st r st'.
  - intros [= <- <-]. lia.
  - rewrite loop_turn. unfold await_collect.
    destruct (collect p channel d None st) as [c1 st1] eqn:Hc.
    destruct (collect_counts _ _ _ _ _ _ _ Hc) as [C1 A1].
    destruct (collect_frame _ _ _ _ _ _ _ Hc) as [R1 _].
    assert (collectors (log st1) <= collectors (log st) + 1)%nat as C1'
      by (destruct (function p); cbn in C1; lia).
    assert (length (armings (log st1)) + collectors (log st)
            <= length (armings (log st)) + collectors (log st1))%nat as A1'
      by (destruct (function p); cbn in C1, A1; lia).
    destruct (promise c1) as [|ret|e]; try (intros [= <- <-]; rewrite R1; lia).
    destruct (getNext (this c1) (wrap ret) st1) as [o2 st2] eqn:Hn.
    destruct (getNext_frame _ _ _ _ _ Hn) as [R2 _].
    rewrite getNext_select in Hn.
    destruct (select_from_quiet _ _ _ _ _ _ _ Hn) as (_ & _ & Ha & _).
    assert (adds no_collector st1 st2) as Hq.
    { apply (adds_weaken is_condition); [intros []; cbn; tauto | exact Ha]. }
    destruct (adds_quiet _ _ Hq) as [C2 A2].
    destruct o2 as [[nextPrompt|]|e| |];
      try (intros [= <- <-]; rewrite R2, R1, C2, A2; lia).
    destruct (sendMessage nextPrompt channel (wrap ret) st2) as [o3 st3] eqn:Hs.
    pose proof (sendMessage_ran _ _ _ _ _ _ Hs) as R3.
    pose proof (sendMessage_log _ _ _ _ _ _ Hs) as L3.
    assert (collectors (log st3) = collectors (log st2)
            /\ armings (log st3) = armings (log st2)) as [C3 A3].
    { rewrite L3, collectors_app, armings_app. cbn. rewrite app_nil_r. split; [lia|reflexivity]. }
    destruct o3 as [sent|e| |];
      try (intros [= <- <-]; rewrite R3, R2, R1, C3, A3, C2, A2; lia).
    intros H. destruct (IH _ _ _ _ _ H) as [C4 A4].
    cbn [log ran push_ran] in C4, A4. rewrite length_app in C4. cbn in C4.
    rewrite R3, R2, R1 in C4. rewrite C3, C2 in C4, A4. rewrite A3, A2 in A4. lia.
Qed.

(** X17. One collector at most for each step visited, and one timeout at
    most for each collector: over a whole [execute] the collectors created
    are no more than the steps recorded, and the timeouts armed no more
    than the collectors created. *)
Theorem execute_creates_one_collector_per_step runner root channel st :
  let r := execute runner root channel st in
  (collectors (log (snd r)) + length (ran st)
   <= collectors (log st) + length (ran (snd r)))%nat
  /\ (length (armings (log (snd r))) + collectors (log st)
      <= length (armings (log st)) + collectors (log (snd r)))%nat.
Proof.
  cbv zeta. unfold execute, sendUserFormatMessage, bind, push.
  destruct (sendMessage root channel (initialData runner) (push_ran root st))
    as [o st1] eqn:Hs.
  pose proof (sendMessage_ran _ _ _ _ _ _ Hs) as R1.
  pose proof (sendMessage_log _ _ _ _ _ _ Hs) as L1.
  cbn [ran log push_ran] in R1, L1.
  assert (collectors (log st1) = collectors (log st)
          /\ armings (log st1) = armings (log st)) as [C1 A1].
  { rewrite L1, collectors_app, armings_app. cbn. rewrite app_nil_r. split; [lia|reflexivity]. }
  assert (length (ran st1) = S (length (ran st))) as N1
    by (rewrite R1, length_app; cbn; lia).
  destruct o as [sent|e| |]; cbn [snd]; try (rewrite C1, A1, N1; lia).
  destruct (loop (S (height root)) channel (snd sent) (initialData runner) st1)
    as [r st'] eqn:Hl.
  destruct (loop_counts _ _ _ _ _ _ _ Hl) as [C A]. cbn [snd].
  rewrite C1 in C, A. rewrite A1 in A. rewrite N1 in C. lia.
Qed.

Lemma all_timed_child p c : all_timed p -> In c (children p) -> all_timed c.
Proof. intros H Hin n Hn. apply H. eapply reach_child; eauto. Qed.

Lemma all_timed_storeMessage m p : all_timed p -> all_timed (storeMessage m p).
Proof.
  intros H n Hn. inversion Hn as [|p' c n' Hin Hc]; subst.
  - cbn [duration storeMessage]. apply H. constructor.
  - cbn [children storeMessage] in Hin. apply H. eapply reach_child; eauto.
Qed.

Lemma loop_never_waits channel : forall fuel p d st,
  all_timed p -> fst (loop fuel channel p d st) <> Waiting.
Proof.
  induction fuel as [|fuel IH]; intros p d st Ht; [discriminate|].
  rewrite loop_turn.
  pose proof (Ht p (reach_self p)) as Hd.
  pose proof (await_collect_settles p channel d st Hd) as Hw.
  destruct (await_collect p channel d st) as [[[promptData p1]|e| |] st1] eqn:Hc;
    try discriminate; [|exfalso; apply Hw; reflexivity].
  destruct (await_collect_frame _ _ _ _ _ _ _ Hc) as [_ Hsame].
  destruct (getNext p1 promptData st1) as [o2 st2] eqn:Hn.
  destruct (getNext_frame _ _ _ _ _ Hn) as [_ Hin].
  rewrite getNext_select in Hn.
  destruct (select_from_quiet _ _ _ _ _ _ _ Hn) as (_ & _ & _ & Hnw).
  destruct o2 as [[nextPrompt|]|e| |]; try discriminate; [|congruence].
  destruct (sendMessage nextPrompt channel promptData st2) as [o3 st3] eqn:Hs.
  destruct o3 as [sent|e| |]; try discriminate.
  - destruct (sendMessage_frame _ _ _ _ _ _ Hs) as [_ E].
    apply IH. rewrite E. apply all_timed_storeMessage.
    assert (In nextPrompt (children p)) as Hin'.
    { specialize (Hin _ eq_refl). destruct Hsame as (_ & _ & _ & _ & [K|K]);
        rewrite K in Hin; [exact Hin | destruct Hin]. }
    apply (all_timed_child _ _ Ht Hin').
  - exfalso. revert Hs. unfold sendMessage, bind, await_send.
    destruct (channel_send channel (formatGenerator nextPrompt promptData) st2)
      as [[err|m] s']; discriminate.
Qed.

(** X18. A run over a tree whose steps all have a duration that is not
    zero never waits for ever: whatever arrives, [execute] returns or
    throws. *)
Theorem timed_menu_never_waits runner root channel st :
  all_timed root -> fst (execute runner root channel st) <> Waiting.
Proof.
  intros Ht. unfold execute, sendUserFormatMessage, bind, push.
  destruct (sendMessage root channel (initialData runner) (push_ran root st))
    as [[sent|e| |] st1] eqn:Hs; try discriminate.
  - destruct (sendMessage_frame _ _ _ _ _ _ Hs) as [_ E].
    apply loop_never_waits. rewrite E. now apply all_timed_storeMessage.
  - exfalso. revert Hs. unfold sendMessage, bind, await_send.
    destruct (channel_send channel (formatGenerator root (initialData runner))
                (push_ran root st)) as [[err|m] s']; discriminate.
Qed.

(** X19. Dropped children end the traversal: when [collect] resolves and
    has left its step without children, as the exit token and inactivity
    do, the loop visits no further step; no condition is evaluated, nothing
    more is sent or recorded, and the state is the one [collect] left. *)
Theorem dropped_children_end_the_traversal channel fuel p d st :
  let c' := fst (collect p channel d None st) in
  forall r, promise c' = Resolved r -> children (this c') = [] ->
  snd (loop (S fuel) channel p d st) = snd (collect p channel d None st)
  /\ fst (loop (S fuel) channel p d st) <> Waiting.
Proof.
  cbv zeta. intros r Hp Hch. rewrite loop_turn. unfold await_collect.
  destruct (collect p channel d None st) as [c' st'] eqn:Hc. cbn [fst snd] in *.
  rewrite Hp. unfold getNext. rewrite Hch. cbn. split; [reflexivity | discriminate].
Qed.

End TraversalMore.

(** ** The queries on the trace *)
Section Queries.

Context {D W : Type} {JS : JsObject D}.
Variable same : Phase D W -> Phase D W -> bool.
Implicit Types (st : State D W) (prompt root : Phase D W).

Lemma indexOf_from_spec {A : Type} (eq : A -> A -> bool) (x : A) (xs : list A) :
  forall i,
  (indexOf_from eq i xs x = -1 /\ forallb (fun y => negb (eq y x)) xs = true)
  \/ (exists k y, indexOf_from eq i xs x = i + Z.of_nat k
                  /\ nth_error xs k = Some y /\ eq y x = true
                  /\ forallb (fun y => negb (eq y x)) (firstn k xs) = true).
Proof.
  induction xs as [|y xs IH]; intros i; cbn [indexOf_from forallb].
  - left. split; reflexivity.
  - destruct (eq y x) eqn:E.
    + right. exists O, y. cbn. repeat split; [lia | exact E].
    + cbn [negb andb]. destruct (IH (i + 1)) as [[H1 H2] | (k & z & H1 & H2 & H3 & H4)].
      * left. split; assumption.
      * right. exists (S k), z. cbn [nth_error firstn forallb]. rewrite E.
        repeat split; try assumption. lia.
Qed.

(** X20. [indexOf] answers -1 exactly when no step of the trace is the
    queried one; otherwise it is the position of the first such step, a
    position within the trace. [indexesOf] answers one such index for each
    of the steps queried, in their order. *)
Theorem indexOf_is_first_position st prompt (prompts : list (Phase D W)) :
  (-1 <= indexOf same st prompt < Z.of_nat (length (ran st)))
  /\ (indexOf same st prompt = -1 <->
      forall q, In q (ran st) -> same q prompt = false)
  /\ (0 <= indexOf same st prompt ->
      exists q,
        nth_error (ran st) (Z.to_nat (indexOf same st prompt)) = Some q
        /\ same q prompt = true
        /\ forall k q', (k < Z.to_nat (indexOf same st prompt))%nat ->
             nth_error (ran st) k = Some q' -> same q' prompt = false)
  /\ length (indexesOf same st prompts) = length prompts
  /\ (forall k, nth_error (indexesOf same st prompts) k
               = option_map (indexOf same st) (nth_error prompts k)).
Proof.
  unfold indexOf.
  destruct (indexOf_from_spec same prompt (ran st) 0)
    as [[H1 H2] | (k & y & H1 & H2 & H3 & H4)].
  - rewrite H1. rewrite forallb_forall in H2.
    split; [lia|]. split; [|split; [lia|]].
    + split; [|reflexivity]. intros _ q Hq. specialize (H2 q Hq).
      now apply negb_true_iff in H2.
    + split; [apply length_map | intros k; apply nth_error_map].
  - rewrite H1. cbn [Z.add].
    assert (k < length (ran st))%nat as Hk
      by (apply nth_error_Some; congruence).
    split; [lia|]. split; [|split].
    + split; [lia|]. intros Hall. rewrite (Hall y) in H3; [discriminate|].
      eapply nth_error_In; eauto.
    + intros _. exists y. rewrite Nat2Z.id. split; [exact H2|]. split; [exact H3|].
      intros j q' Hj Hq'. rewrite forallb_forall in H4.
      assert (In q' (firstn k (ran st))) as Hin.
      { apply (nth_error_In _ j). rewrite nth_error_firstn.
        apply Nat.ltb_lt in Hj. rewrite Hj. exact Hq'. }
      specialize (H4 _ Hin). now apply negb_true_iff in H4.
    + split; [apply length_map | intros j; apply nth_error_map].
Qed.

Lemma indexOf_from_found_app {A : Type} (eq : A -> A -> bool) (x : A)
  (xs ys : list A) : forall i,
  0 <= i -> 0 <= indexOf_from eq i xs x ->
  indexOf_from eq i (xs ++ ys) x = indexOf_from eq i xs x.
Proof.
  induction xs as [|y xs IH]; intros i Hi; cbn [app indexOf_from]; [lia|].
  destruct (eq y x); [reflexivity|]. apply IH. lia.
Qed.

Lemma indexOf_from_absent_app {A : Type} (eq : A -> A -> bool) (x : A)
  (xs ys : list A) : forall i,
  0 <= i -> indexOf_from eq i xs x = -1 ->
  indexOf_from eq i (xs ++ ys) x = indexOf_from eq (i + Z.of_nat (length xs)) ys x.
Proof.
  induction xs as [|y xs IH]; intros i Hi; cbn [app indexOf_from length].
  - intros _. now rewrite Z.add_0_r.
  - destruct (eq y x); [lia|]. intros H. rewrite (IH (i + 1)) by (lia || exact H).
    f_equal. lia.
Qed.

(** X21. A run keeps the indexes it has given: the trace is only appended
    to, so a step found in the trace before [execute] has the same index
    after it; the root, when it was not in the trace, is found at the
    position where the run started. *)
Theorem execute_keeps_indexes runner root channel st :
  let st' := snd (execute runner root channel st) in
  (forall prompt, 0 <= indexOf same st prompt ->
      indexOf same st' prompt = indexOf same st prompt)
  /\ (same root root = true -> indexOf same st root = -1 ->
      indexOf same st' root = Z.of_nat (length (ran st)))
  /\ (length (ran st) < length (ran st'))%nat.
Proof.
  cbv zeta. destruct (execute_ran runner root channel st) as (tail & E & _).
  unfold indexOf. rewrite E. split; [|split].
  - intros prompt H. apply indexOf_from_found_app; [lia | exact H].
  - intros Hsame Habsent. rewrite indexOf_from_absent_app by (lia || exact Habsent).
    cbn [indexOf_from]. now rewrite Hsame.
  - rewrite length_app. cbn. lia.
Qed.

End Queries.


(** ** The ends of a phase, and what the run makes of them *)
Section Endings.

Context {D W : Type} {JS : JsObject D}.
Implicit Types (st : State D W) (c : Collection D W) (data d : D)
  (p q root : Phase D W) (func : PhaseFunction D W)
  (channel : ChannelInterface W) (m : MessageInterface)
  (runner : PromptRunner D).

(** A message that is rejected, the feedback being sent. *)
Lemma onMessage_retry channel data func m c st s w sent w' c' st' :
  content m <> "exit" ->
  func m data (world st) = (Throw (Rejection s), w) ->
  send channel (textOnly (invalidFeedback (Rejection s))) w = (inr sent, w') ->
  onMessage (listeners channel data) func data m c st = (c', st') ->
  promise c' = promise c /\ timer c' = timer c
  /\ children (this c') = children (this c)
  /\ log st' = log st ++ [Eff_function m; Eff_emit (Ev_reject m (Rejection s));
                          Eff_send (textOnly (invalidFeedback (Rejection s)))].
Proof.
  intros Hexit Hf Hs. unfold onMessage, handleMessage.
  rewrite (exit_eqb_false _ Hexit). step_handlers. rewrite Hf.
  cbn [world set_world]. rewrite Hs. intros [= <- <-].
  cbn [promise timer this children storeMessage log set_world record].
  repeat split. now rewrite <- !app_assoc.
Qed.

(** Rejected messages leave the collector waiting, its timeout and the
    children of its step as they were. *)
Lemma pump_retried channel data func pre post c st c' st' :
  retried channel data func pre post c st c' st' ->
  promise c = Pending ->
  pump (listeners channel data) func data (pre ++ post) c st
  = pump (listeners channel data) func data post c' st'
  /\ promise c' = Pending /\ timer c' = timer c
  /\ children (this c') = children (this c).
Proof.
  induction 1 as [post c st|t m pre post c st s w sent w' c1 st1 c2 st2
                    Hd Hexit Hf Hs Hm Hr IH]; intros Hp.
  - repeat split; assumption.
  - destruct (onMessage_retry _ _ _ _ _ _ _ _ _ _ _ _ Hexit Hf Hs Hm)
      as (Hp1 & Ht1 & Hc1 & _).
    rewrite Hp in Hp1. destruct (IH Hp1) as (E & Hp2 & Ht2 & Hc2).
    cbn [app]. rewrite pump_message by assumption. rewrite Hm.
    repeat split; [exact E | exact Hp2 | congruence | congruence].
Qed.

(** [collect] on a step with a collection function: the life of the
    collector from its start. *)
Lemma collect_start p func channel d trig st :
  function p = Some func ->
  collect p channel d trig st
  = pump (listeners channel d) func d (inbox st)
      (fst (phase_start p trig st)) (snd (phase_start p trig st))
  /\ promise (fst (phase_start p trig st)) = Pending
  /\ this (fst (phase_start p trig st)) = p.
Proof.
  intros Hf. unfold collect, phase_start, handleCollector. rewrite Hf.
  destruct (nonzero (duration p)); cbn; repeat split.
Qed.

(** [collect] once the first messages have been rejected. *)
Lemma collect_retried p func channel d trig st pre post c1 st1 :
  function p = Some func ->
  inbox st = pre ++ post ->
  retried channel d func pre post
    (fst (phase_start p trig st)) (snd (phase_start p trig st)) c1 st1 ->
  collect p channel d trig st = pump (listeners channel d) func d post c1 st1
  /\ promise c1 = Pending
  /\ timer c1 = timer (fst (phase_start p trig st))
  /\ children (this c1) = children p.
Proof.
  intros Hf Hi Hr.
  destruct (collect_start p func channel d trig st Hf) as (E & Hp & Hthis).
  destruct (pump_retried _ _ _ _ _ _ _ _ _ Hr Hp) as (E' & Hp1 & Ht1 & Hc1).
  rewrite E, Hi, E'. rewrite Hthis in Hc1. repeat split; assumption.
Qed.

(** The turn of the loop at a step whose phase resolved with no child
    left: the loop is over. *)
Lemma loop_ends channel fuel p d st c' st' r :
  collect p channel d None st = (c', st') ->
  promise c' = Resolved r ->
  children (this c') = [] ->
  loop (S fuel) channel p d st = (Returned tt, st').
Proof.
  intros Hc Hp Hch. rewrite loop_turn. unfold await_collect.
  rewrite Hc, Hp. unfold getNext. rewrite Hch. reflexivity.
Qed.

(** What [execute] and [run] return is what the loop returns at the step
    it has come to. *)
Lemma execute_at runner root channel st0 p d st o st' :
  visits runner root channel st0 p d st ->
  (forall fuel, loop (S fuel) channel p d st = (o, st')) ->
  execute runner root channel st0 = (o, st')
  /\ (valid root = true -> run runner root channel st0 = (o, st')).
Proof.
  intros Hv Hl.
  assert (execute runner root channel st0 = (o, st')) as He.
  { rewrite (execute_visits _ _ _ _ _ _ _ Hv). apply Hl. }
  split; [exact He|]. intros Hvalid. unfold run. now rewrite Hvalid.
Qed.

(** C7. A message on which the collection function fails with an error
    that is not a [Rejection] ends the phase in FAILED and the run with
    it. Whatever step of the traversal the phase belongs to and however
    many messages were rejected in it before: [collect] rejects its
    promise with that very error, the log gaining the call, ['error'],
    ['stop'] and [clearTimeout], the children being kept and the later
    messages left unread; the loop throws that error from there, and so
    do [execute] and [run], in the state [collect] left. *)
Theorem function_error_aborts_run p func channel d st pre t m rest c1 st1 e w :
  function p = Some func ->
  inbox st = pre ++ (t, m) :: rest ->
  retried channel d func pre ((t, m) :: rest)
    (fst (phase_start p None st)) (snd (phase_start p None st)) c1 st1 ->
  due (timer c1) t = None ->
  content m <> "exit" ->
  func m d (world st1) = (Throw (JsError e), w) ->
  exists c' st',
    collect p channel d None st = (c', st')
    /\ promise c' = Rejected (JsError e)
    /\ log st' = log st1 ++ [Eff_function m; Eff_emit (Ev_error m (JsError e));
                             Eff_emit Ev_stop; Eff_clearTimeout]
    /\ world st' = w /\ inbox st' = rest
    /\ children (this c') = children p
    /\ (forall fuel, loop (S fuel) channel p d st = (Threw (JsError e), st'))
    /\ (forall runner root st0,
        visits runner root channel st0 p d st ->
        execute runner root channel st0 = (Threw (JsError e), st')
        /\ (valid root = true ->
            run runner root channel st0 = (Threw (JsError e), st'))).
Proof.
  intros Hf Hi Hr Hd Hexit He.
  destruct (collect_retried _ _ _ _ _ _ _ _ _ _ Hf Hi Hr) as (E & Hp & _ & Hch).
  destruct (onMessage (listeners channel d) func d m c1
              (set_inbox rest (set_clock (Z.max (clock st1) t) st1)))
    as [c' st'] eqn:Hm.
  destruct (onMessage_error _ _ _ _ _ _ e w _ _ Hexit He Hm)
    as (_ & Hlog & Hw & _ & Hch' & _ & Hrej & Hpump).
  destruct (onMessage_frame _ _ _ _ _ _ _ _ Hm) as (_ & Hin & _).
  assert (collect p channel d None st = (c', st')) as Hc.
  { rewrite E. exact (Hpump t rest st1 eq_refl Hp Hd). }
  assert (forall fuel, loop (S fuel) channel p d st = (Threw (JsError e), st')) as Hl.
  { intros fuel. apply (loop_throws _ _ _ _ _ c'); [exact Hc | exact (Hrej Hp)]. }
  exists c', st'. split; [exact Hc|]. split; [exact (Hrej Hp)|].
  split; [exact Hlog|]. split; [exact Hw|]. split; [exact Hin|].
  split; [congruence|]. split; [exact Hl|].
  intros runner root st0 Hv. exact (execute_at _ _ _ _ _ _ _ _ _ Hv Hl).
Qed.

(** The exit token: [terminateHere] is run with the exit message, and the
    promise is settled by its send. *)
Lemma onMessage_exit channel data func m c st c' st' :
  content m = "exit" ->
  promise c = Pending ->
  onMessage (listeners channel data) func data m c st = (c', st') ->
  log st' = log st ++ [Eff_emit (Ev_exit m); Eff_send (textOnly STRINGS_exit);
                       Eff_emit Ev_stop; Eff_clearTimeout]
  /\ children (this c') = []
  /\ promise c'
     = terminated data (fst (send channel (textOnly STRINGS_exit) (world st)))
  /\ world st' = snd (send channel (textOnly STRINGS_exit) (world st)).
Proof.
  intros Hexit Hp. unfold onMessage, handleMessage. rewrite Hexit.
  cbn [String.eqb Ascii.eqb Bool.eqb andb]. step_handlers.
  destruct (send channel (textOnly STRINGS_exit) (world st)) as [[err|sent] w];
    intros [= <- <-]; cbn [fst snd terminated log world set_world record promise this];
    settled.
  - rewrite promise_reject by exact Hp.
    repeat split. now rewrite <- !app_assoc.
  - rewrite promise_resolve by exact Hp.
    repeat split. now rewrite <- !app_assoc.
Qed.

(** The timeout: [terminateHere] is run with the inactivity message, and
    the promise is settled by its send. *)
Lemma onTimeout_inactivity channel data c st c' st' :
  promise c = Pending ->
  onTimeout (listeners channel data) c st = (c', st') ->
  log st' = log st ++ [Eff_emit Ev_stop; Eff_emit Ev_inactivity;
                       Eff_send (textOnly STRINGS_inactivity)]
  /\ children (this c') = []
  /\ promise c'
     = terminated data (fst (send channel (textOnly STRINGS_inactivity) (world st)))
  /\ world st' = snd (send channel (textOnly STRINGS_inactivity) (world st)).
Proof.
  intros Hp. unfold onTimeout. step_handlers.
  destruct (send channel (textOnly STRINGS_inactivity) (world st)) as [[err|sent] w];
    intros [= <- <-]; cbn [fst snd terminated log world set_world record promise this];
    settled.
  - rewrite promise_reject by exact Hp.
    repeat split. now rewrite <- !app_assoc.
  - rewrite promise_resolve by exact Hp.
    repeat split. now rewrite <- !app_assoc.
Qed.

(** The loop at a step whose phase was terminated. *)
Lemma loop_terminated channel p d st c' st' r :
  collect p channel d None st = (c', st') ->
  promise c' = terminated d r ->
  children (this c') = [] ->
  forall fuel, loop (S fuel) channel p d st = (returned_after r, st').
Proof.
  intros Hc Hp Hch fuel. destruct r as [err|sent]; cbn [terminated returned_after] in *.
  - now apply (loop_throws _ _ _ _ _ c').
  - now apply (loop_ends _ _ _ _ _ c' _ _ Hc Hp).
Qed.

(** C4, amended. A phase that ends in EXITED or INACTIVE ends the
    traversal, and no signal of its own reaches the caller. Whatever step
    of the traversal the phase belongs to and however many messages were
    rejected in it before: on the exit token, and at the deadline when no
    message came before it, the children of the step are dropped and the
    termination message is sent; the promise of [collect] resolves with the
    sent message and the data the phase was given, the loop finds no next
    step and [execute] and [run] return normally, in the state [collect]
    left. They throw only when the termination message could not be sent,
    and then the error of the channel. *)
Theorem exit_or_inactivity_ends_the_run_normally
  p func channel d st pre post c1 st1 :
  function p = Some func ->
  inbox st = pre ++ post ->
  retried channel d func pre post
    (fst (phase_start p None st)) (snd (phase_start p None st)) c1 st1 ->
  (forall t m rest,
      post = (t, m) :: rest -> due (timer c1) t = None -> content m = "exit" ->
      let sending := send channel (textOnly STRINGS_exit) (world st1) in
      exists c' st',
        collect p channel d None st = (c', st')
        /\ log st' = log st1 ++ [Eff_emit (Ev_exit m); Eff_send (textOnly STRINGS_exit);
                                 Eff_emit Ev_stop; Eff_clearTimeout]
        /\ children (this c') = []
        /\ promise c' = terminated d (fst sending)
        /\ world st' = snd sending /\ inbox st' = rest
        /\ (forall fuel,
            loop (S fuel) channel p d st = (returned_after (fst sending), st'))
        /\ (forall runner root st0,
            visits runner root channel st0 p d st ->
            execute runner root channel st0 = (returned_after (fst sending), st')
            /\ (valid root = true ->
                run runner root channel st0 = (returned_after (fst sending), st'))))
  /\ (forall deadline,
      timer c1 = Some deadline ->
      post = [] \/ (exists t m rest, post = (t, m) :: rest /\ deadline <= t) ->
      let sending := send channel (textOnly STRINGS_inactivity) (world st1) in
      exists c' st',
        collect p channel d None st = (c', st')
        /\ log st' = log st1 ++ [Eff_emit Ev_stop; Eff_emit Ev_inactivity;
                                 Eff_send (textOnly STRINGS_inactivity)]
        /\ children (this c') = []
        /\ promise c' = terminated d (fst sending)
        /\ world st' = snd sending /\ inbox st' = inbox st1
        /\ (forall fuel,
            loop (S fuel) channel p d st = (returned_after (fst sending), st'))
        /\ (forall runner root st0,
            visits runner root channel st0 p d st ->
            execute runner root channel st0 = (returned_after (fst sending), st')
            /\ (valid root = true ->
                run runner root channel st0 = (returned_after (fst sending), st')))).
Proof.
  intros Hf Hi Hr.
  destruct (collect_retried _ _ _ _ _ _ _ _ _ _ Hf Hi Hr) as (E & Hp & _ & _).
  split.
  - intros t m rest -> Hd Hexit sending.
    destruct (onMessage (listeners channel d) func d m c1
                (set_inbox rest (set_clock (Z.max (clock st1) t) st1)))
      as [c' st'] eqn:Hm.
    destruct (onMessage_exit _ _ _ _ _ _ _ _ Hexit Hp Hm) as (Hlog & Hch & Hpr & Hw).
    destruct (onMessage_frame _ _ _ _ _ _ _ _ Hm) as (_ & Hin & _).
    cbn [world set_inbox set_clock] in Hpr, Hw. cbn [log set_inbox set_clock] in Hlog.
    cbn [inbox set_inbox] in Hin. fold sending in Hpr, Hw.
    assert (collect p channel d None st = (c', st')) as Hc.
    { rewrite E, pump_message by assumption. rewrite Hm. apply pump_settled.
      rewrite Hpr. destruct (fst sending); discriminate. }
    pose proof (loop_terminated _ _ _ _ _ _ _ Hc Hpr Hch) as Hl.
    exists c', st'. do 6 (split; [assumption|]). split; [exact Hl|].
    intros runner root st0 Hv. exact (execute_at _ _ _ _ _ _ _ _ _ Hv Hl).
  - intros deadline Ht Hpost sending.
    destruct (onTimeout (listeners channel d) c1
                (set_clock (Z.max (clock st1) deadline) st1)) as [c' st'] eqn:Hm.
    destruct (onTimeout_inactivity _ _ _ _ _ _ Hp Hm) as (Hlog & Hch & Hpr & Hw).
    destruct (onTimeout_frame _ _ _ _ _ _ Hm) as (_ & Hin & _).
    cbn [world set_clock] in Hpr, Hw. cbn [log set_clock] in Hlog.
    cbn [inbox set_clock] in Hin. fold sending in Hpr, Hw.
    assert (collect p channel d None st = (c', st')) as Hc.
    { rewrite E. destruct Hpost as [->|(t & m & rest & -> & Hle)].
      - cbn [pump]. rewrite Hp, Ht. exact Hm.
      - cbn [pump]. rewrite Hp, Ht. cbn [due].
        apply Z.leb_le in Hle. rewrite Hle. exact Hm. }
    pose proof (loop_terminated _ _ _ _ _ _ _ Hc Hpr Hch) as Hl.
    exists c', st'. do 6 (split; [assumption|]). split; [exact Hl|].
    intros runner root st0 Hv. exact (execute_at _ _ _ _ _ _ _ _ _ Hv Hl).
Qed.








(** How handling a message can settle the promise: by a message that stops
    the collector, the timeout being cleared, or by the feedback of a
    rejection that cannot be sent. *)
Lemma onMessage_ending channel data func m c st c' st' :
  promise c = Pending ->
  onMessage (listeners channel data) func data m c st = (c', st') ->
  promise c' = Pending
  \/ (stopped_by_message (log st') /\ timer c' = None)
  \/ stopped_by_failed_feedback (log st').
Proof.
  intros Hp Hm. pose proof (onMessage_timer _ _ _ _ _ _ _ _ Hm) as Ht.
  destruct (fst (handleMessage (listeners channel data) m func data c st)) eqn:Hstop.
  - right. left. destruct Ht as (Ht & l & E). split; [exists l; exact E | exact Ht].
  - rewrite handleMessage_stops in Hstop. revert Hm Hstop.
    unfold onMessage, handleMessage.
    destruct (String.eqb (content m) "exit"); [discriminate|].
    step_handlers.
    destruct (func m data (world st)) as [[newData|[s|e]] w]; cbn [fst];
      try discriminate.
    cbn [world set_world].
    destruct (send channel (textOnly (invalidFeedback (Rejection s))) w)
      as [[err|sent] w']; intros [= <- <-] _.
    + right. right. exists (log st ++ [Eff_function m]), m, s.
      cbn [log set_world record]. now rewrite <- !app_assoc.
    + left. exact Hp.
Qed.

(** How a phase can have ended. *)
Lemma pump_ending channel data func incoming : forall c st c' st',
  promise c = Pending ->
  pump (listeners channel data) func data incoming c st = (c', st') ->
  promise c' = Pending
  \/ (stopped_by_message (log st') /\ timer c' = None)
  \/ stopped_by_timeout (log st')
  \/ stopped_by_failed_feedback (log st').
Proof.
  assert (forall c st c' st', onTimeout (listeners channel data) c st = (c', st') ->
            stopped_by_timeout (log st')) as Htimeout.
  { intros c st c' st' H. destruct (onTimeout_effects _ _ _ _ _ _ H) as (E & _).
    exists (log st). exact E. }
  induction incoming as [|[t m] rest IH]; intros c st c' st' Hp; cbn [pump]; rewrite Hp.
  - destruct (timer c) as [deadline|].
    + intros H. right. right. left. exact (Htimeout _ _ _ _ H).
    + intros [= <- <-]. now left.
  - destruct (due (timer c) t) as [deadline|].
    + intros H. right. right. left. exact (Htimeout _ _ _ _ H).
    + destruct (onMessage (listeners channel data) func data m c
                  (set_inbox rest (set_clock (Z.max (clock st) t) st)))
        as [c1 st1] eqn:Hm.
      destruct (promise c1) eqn:Hp1.
      * now apply IH.
      * rewrite pump_settled by (rewrite Hp1; discriminate). intros [= <- <-].
        destruct (onMessage_ending _ _ _ _ _ _ _ _ Hp Hm) as [H|[H|H]];
          [congruence | right; left; exact H | right; right; right; exact H].
      * rewrite pump_settled by (rewrite Hp1; discriminate). intros [= <- <-].
        destruct (onMessage_ending _ _ _ _ _ _ _ _ Hp Hm) as [H|[H|H]];
          [congruence | right; left; exact H | right; right; right; exact H].
Qed.

(** C3, amended. A collection phase whose duration is not zero arms its
    timeout once, when it starts, by [setTimeout] with the duration of the
    step: the deadline is the start of the phase plus the delay the
    platform makes of that duration, which is the duration itself from 1
    to 2147483647 ms. A message that is rejected leaves the timeout as it
    is, neither cleared nor armed again, and whatever was rejected before,
    a message that arrives at or after the deadline is not handled, the
    timeout fires instead. A message that ends the phase by exit, accept
    or error is followed by ['stop'] and [clearTimeout]; and a phase that
    has ended has had its timeout cleared last, unless it ended by the
    timeout itself or by the feedback of a rejection failing to be sent. *)
Theorem timeout_armed_once_when_duration_nonzero :
  (forall p func channel data trig st c' st',
      function p = Some func -> duration p <> 0 ->
      collect p channel data trig st = (c', st') ->
      timeout_armed_once p channel data trig st
      /\ (exists rest, log st' = log st ++ Eff_createCollector trig
                                 :: Eff_setTimeout (duration p) :: rest)
      /\ timer (fst (phase_start p trig st))
         = Some (clock st + setTimeout_delay (duration p))
      /\ (1 <= duration p <= 2147483647 ->
          timer (fst (phase_start p trig st)) = Some (clock st + duration p)))
  /\ (forall channel data func m c st c' st',
      onMessage (listeners channel data) func data m c st = (c', st') ->
      if String.eqb (content m) "exit" then
        timer c' = None /\ stopped_by_message (log st')
      else match fst (func m data (world st)) with
           | Throw (Rejection _) => timer c' = timer c /\ adds keeps_timer st st'
           | _ => timer c' = None /\ stopped_by_message (log st')
           end)
  /\ (forall channel data func c st deadline t m rest,
      promise c = Pending -> timer c = Some deadline -> deadline <= t ->
      pump (listeners channel data) func data ((t, m) :: rest) c st
      = onTimeout (listeners channel data) c
          (set_clock (Z.max (clock st) deadline) st))
  /\ (forall p func channel data trig st c' st',
      function p = Some func ->
      collect p channel data trig st = (c', st') ->
      promise c' <> Pending ->
      (stopped_by_message (log st') /\ timer c' = None)
      \/ stopped_by_timeout (log st')
      \/ stopped_by_failed_feedback (log st')).
Proof.
  split; [|split; [|split]].
  - intros p func channel data trig st c' st' Hf Hd Hc.
    unfold timeout_armed_once. rewrite Hc. cbn [snd].
    assert (timer (fst (phase_start p trig st))
            = Some (clock st + setTimeout_delay (duration p))) as Ht.
    { unfold phase_start, handleCollector, nonzero.
      apply Z.eqb_neq in Hd. rewrite Hd. reflexivity. }
    revert Hc. unfold collect, handleCollector, nonzero. rewrite Hf.
    apply Z.eqb_neq in Hd. rewrite Hd. cbn [negb]. intros Hpump.
    destruct (pump_effects _ _ _ _ _ _ _ _ Hpump) as (Ha & _).
    split; [|split; [|split]].
    + rewrite (adds_armings _ _ Ha). cbn [log record].
      rewrite !armings_app. cbn. now rewrite app_nil_r.
    + destruct Ha as (rest & E & _). exists rest. rewrite E. cbn [log record].
      now rewrite <- !app_assoc.
    + exact Ht.
    + intros [Hlo Hhi]. rewrite Ht. unfold setTimeout_delay.
      replace (duration p <? 1) with false by (symmetry; apply Z.ltb_ge; lia).
      replace (2147483647 <? duration p) with false by (symmetry; apply Z.ltb_ge; lia).
      reflexivity.
  - intros channel data func m c st c' st' Hm.
    pose proof (onMessage_timer _ _ _ _ _ _ _ _ Hm) as H.
    rewrite handleMessage_stops in H. unfold stopped_by_message.
    destruct (String.eqb (content m) "exit"); [exact H|].
    destruct (fst (func m data (world st))) as [newData|[s|e]]; exact H.
  - intros channel data func c st deadline t m rest Hp Ht Hle.
    cbn [pump]. rewrite Hp, Ht. cbn [due].
    apply Z.leb_le in Hle. now rewrite Hle.
  - intros p func channel data trig st c' st' Hf Hc Hsettled.
    destruct (collect_start p func channel data trig st Hf) as (E & Hp & _).
    rewrite E in Hc.
    destruct (pump_ending _ _ _ _ _ _ _ _ Hp Hc) as [H|H]; [contradiction | exact H].
Qed.

End Endings.

(** * The properties on the concrete menu *)

Module MenuFacts.

Import Menu.

(** A run answered George, then "abc", then 30. The second phase is given
    the object the first resolved with, and the conditions of its children
    the object it resolved with itself, in which they find no age: both
    are evaluated and neither child is selected. *)
Example run_asks_name_then_age :
  let r := run runner askName channel
             (start [(5, george); (9, notANumber); (12, thirty)]) in
  fst r = Returned tt
  /\ texts (snd r) = ["name?"; "age?"]
  /\ log (snd r)
     = [Eff_send (textOnly "name?"); Eff_createCollector None; Eff_setTimeout 60000;
        Eff_function george;
        Eff_emit (Ev_accept george {| name := Some "George"; age := None |});
        Eff_emit Ev_stop; Eff_clearTimeout;
        Eff_send (textOnly "age?"); Eff_createCollector None; Eff_setTimeout 60000;
        Eff_function notANumber; Eff_emit (Ev_reject notANumber (Rejection ""));
        Eff_send (textOnly STRINGS_rejected);
        Eff_function thirty;
        Eff_emit (Ev_accept thirty {| name := None; age := Some 30 |});
        Eff_emit Ev_stop; Eff_clearTimeout;
        Eff_condition 0; Eff_condition 1].
Proof. cbv zeta. repeat split; vm_compute; reflexivity. Qed.

(** A rejection at 9000 does not move the deadline of 10000: the answer
    that arrives at 10500 is not read, the phase ends by inactivity. *)
Example rejection_keeps_the_deadline :
  let r := collect tenSeconds channel noData None
             (start [(9000, notANumber); (10500, thirty)]) in
  log (snd r)
  = [Eff_createCollector None; Eff_setTimeout 10000;
     Eff_function notANumber; Eff_emit (Ev_reject notANumber (Rejection ""));
     Eff_send (textOnly STRINGS_rejected);
     Eff_emit Ev_stop; Eff_emit Ev_inactivity;
     Eff_send (textOnly STRINGS_inactivity)]
  /\ clock (snd r) = 10000
  /\ inbox (snd r) = [(10500, thirty)].
Proof. cbv zeta. repeat split; vm_compute; reflexivity. Qed.

(** Of [A] (false), [B] (true) and [C] (true), [B] is selected and the
    condition of [C] is not called: the world has seen two calls. *)
Example getNext_stops_at_first_eligible :
  let r := getNext threeWay noData (start []) in
  fst r = Returned (Some childB)
  /\ log (snd r) = [Eff_condition 0; Eff_condition 1]
  /\ world (snd r) = 2%nat.
Proof. cbv zeta. repeat split. Qed.

(** With no timeout, two rejections far apart leave the phase waiting. *)
Example patient_keeps_waiting :
  let r := collect patient channel noData None
             (start [(5, notANumber); (86400000, notANumber)]) in
  promise (fst r) = Pending
  /\ timer (fst r) = None
  /\ inbox (snd r) = []
  /\ armings (log (snd r)) = [].
Proof. cbv zeta. repeat split. Qed.

(** When the channel fails, the feedback of a rejection cannot be sent:
    the promise is rejected with the error of the channel. *)
Example failed_feedback_rejects_with_channel_error :
  promise (fst (onMessage (listeners deadChannel noData) askAgeFn noData notANumber
                  collecting (start [])))
  = Rejected (JsError "Missing Access").
Proof. reflexivity. Qed.

(** The bad menu is refused. *)
Example badMenu_is_invalid : valid badMenu = false /\ valid askName = true.
Proof. split; reflexivity. Qed.

Lemma exit_token_witness :
  content exitMessage = "exit"
  /\ log (snd (onMessage (listeners channel noData) askAgeFn noData exitMessage
                 collecting (start [])))
     = [Eff_emit (Ev_exit exitMessage); Eff_send (textOnly STRINGS_exit);
        Eff_emit Ev_stop; Eff_clearTimeout].
Proof.
  split; [reflexivity|].
  exact (proj1 (proj2 (exit_token_ends_phase_before_function
                         channel noData askAgeFn exitMessage collecting (start [])
                         _ _ eq_refl eq_refl))).
Defined.

Lemma rejection_witness :
  content notANumber <> "exit"
  /\ timer (fst (onMessage (listeners channel noData) askAgeFn noData notANumber
                   collecting (start [])))
     = Some 60005.
Proof.
  assert (content notANumber <> "exit") as H by discriminate.
  split; [exact H|].
  exact (proj1 (proj2 (proj2 (rejection_retries_within_phase
                         channel noData askAgeFn notANumber collecting (start [])
                         "" 1%nat _ _ H eq_refl eq_refl)))).
Defined.

Lemma function_error_witness :
  fst (run runner strictMenu channel
         (start [(5, george); (9, notANumber); (12, tooMany)]))
  = Threw (JsError "Out of range").
Proof.
  eassert (visits runner strictMenu channel
             (start [(5, george); (9, notANumber); (12, tooMany)]) _ _ _) as Hv.
  { eexists _, _. split; [reflexivity|].
    eapply reaches_next; [reflexivity | reflexivity | reflexivity | apply reaches_here]. }
  lazymatch type of Hv with
  | visits _ _ _ _ ?p ?d ?st =>
      eassert (retried channel d strictAgeFn [(9, notANumber)] [(12, tooMany)]
                 (fst (phase_start p None st)) (snd (phase_start p None st)) _ _)
        as Hr
  end.
  { eapply retried_cons;
      [reflexivity | discriminate | reflexivity | reflexivity | reflexivity
      | apply retried_nil]. }
  assert (content tooMany <> "exit") as Hne by discriminate.
  lazymatch type of Hr with
  | retried _ ?d _ _ _ (fst (phase_start ?p None ?st)) _ ?c1 ?st1 =>
      destruct (function_error_aborts_run p strictAgeFn channel d st
                  [(9, notANumber)] 12 tooMany [] c1 st1 "Out of range" _
                  eq_refl eq_refl Hr eq_refl Hne eq_refl)
        as (c' & st' & _ & _ & _ & _ & _ & _ & _ & Hrun)
  end.
  rewrite (proj2 (Hrun runner strictMenu _ Hv) eq_refl). reflexivity.
Defined.


Lemma zero_duration_witness :
  duration patient = 0
  /\ promise (fst (collect patient channel noData None (start []))) = Pending.
Proof.
  split; [reflexivity|].
  destruct (zero_duration_never_inactive patient askAgeFn channel noData None
              (start []) _ _ eq_refl eq_refl eq_refl) as (_ & _ & _ & H & _).
  exact (proj1 (H eq_refl)).
Defined.

(** C3 as it is written fails on three inputs. A step whose duration is
    zero arms no timeout at all. A step that is to wait fifty days has its
    deadline one millisecond after the start of its phase, not fifty days
    after it. And a phase that ends because the feedback of a rejection
    cannot be sent ends with its promise rejected and its timeout still
    armed: nothing clears it. *)
Lemma timeout_is_not_always_armed_or_cleared :
  ~ (forall (p : Phase PromptData nat) ch d trig st,
        function p <> None -> timeout_armed_once p ch d trig st)
  /\ (timer (fst (phase_start fiftyDays None (start []))) = Some 1
      /\ Some 1 <> Some (clock (start []) + duration fiftyDays))
  /\ (let r := collect tenSeconds deadChannel noData None (start [(5, notANumber)]) in
      promise (fst r) = Rejected (JsError "Missing Access")
      /\ timer (fst r) = Some 10000
      /\ log (snd r)
         = [Eff_createCollector None; Eff_setTimeout 10000;
            Eff_function notANumber; Eff_emit (Ev_reject notANumber (Rejection ""));
            Eff_send (textOnly STRINGS_rejected)]).
Proof.
  split; [|split].
  - intros H.
    assert (function patient <> None) as Hf by discriminate.
    specialize (H patient channel noData None (start [(5, notANumber)]) Hf).
    unfold timeout_armed_once in H. vm_compute in H. discriminate.
  - split; [reflexivity | discriminate].
  - cbv zeta. repeat split.
Qed.

(** C4 as it is written fails on the exit token and on a deadline that
    passes in silence: the promise of [collect] resolves, with the
    termination message and the data, and [run] returns normally; nothing
    is thrown to its caller. *)
Lemma exit_and_inactivity_resolve_normally :
  (promise (fst (collect askName channel noData None (start [(5, exitMessage)])))
   = Resolved {| message := Some {| content := STRINGS_exit |}; data := noData |}
   /\ let r := run runner askName channel (start [(5, exitMessage)]) in
      fst r = Returned tt
      /\ log (snd r)
         = [Eff_send (textOnly "name?"); Eff_createCollector None; Eff_setTimeout 60000;
            Eff_emit (Ev_exit exitMessage); Eff_send (textOnly STRINGS_exit);
            Eff_emit Ev_stop; Eff_clearTimeout])
  /\ (promise (fst (collect tenSeconds channel noData None (start [])))
      = Resolved {| message := Some {| content := STRINGS_inactivity |};
                    data := noData |}
      /\ let r := run runner tenSeconds channel (start []) in
         fst r = Returned tt
         /\ log (snd r)
            = [Eff_send (textOnly "age?"); Eff_createCollector None; Eff_setTimeout 10000;
               Eff_emit Ev_stop; Eff_emit Ev_inactivity;
               Eff_send (textOnly STRINGS_inactivity)]).
Proof. cbv zeta. repeat split; vm_compute; reflexivity. Qed.

Lemma exit_after_a_rejection_witness :
  fst (run runner askName channel
         (start [(5, george); (9, notANumber); (12, exitMessage)]))
  = Returned tt.
Proof.
  eassert (visits runner askName channel
             (start [(5, george); (9, notANumber); (12, exitMessage)]) _ _ _) as Hv.
  { eexists _, _. split; [reflexivity|].
    eapply reaches_next; [reflexivity | reflexivity | reflexivity | apply reaches_here]. }
  lazymatch type of Hv with
  | visits _ _ _ _ ?p ?d ?st =>
      eassert (retried channel d askAgeFn [(9, notANumber)] [(12, exitMessage)]
                 (fst (phase_start p None st)) (snd (phase_start p None st)) _ _)
        as Hr
  end.
  { eapply retried_cons;
      [reflexivity | discriminate | reflexivity | reflexivity | reflexivity
      | apply retried_nil]. }
  lazymatch type of Hr with
  | retried _ ?d _ _ _ (fst (phase_start ?p None ?st)) _ ?c1 ?st1 =>
      destruct (proj1 (exit_or_inactivity_ends_the_run_normally p askAgeFn channel d st
                         [(9, notANumber)] [(12, exitMessage)] c1 st1
                         eq_refl eq_refl Hr)
                  12 exitMessage [] eq_refl eq_refl eq_refl)
        as (c' & st' & _ & _ & _ & _ & _ & _ & _ & Hrun)
  end.
  rewrite (proj2 (Hrun runner askName _ Hv) eq_refl). reflexivity.
Defined.

End MenuFacts.

(** * The further properties on the concrete menu *)

Module ExtraFacts.

Import Menu.

(** The queries on the trace after George, "abc" and 30. *)
Example indexesOf_after_the_run :
  indexesOf sameText
    (snd (run runner askName channel
            (start [(5, george); (9, notANumber); (12, thirty)])))
    [askName; askAge; tooOld; tooYoung]
  = [0; 1; -1; -1].
Proof. vm_compute. reflexivity. Qed.

Lemma accepted_message_witness :
  promise (fst (onMessage (listeners channel noData) askNameFn noData george
                  askingName (start [])))
  = Resolved {| message := Some george;
                data := {| name := Some "George"; age := None |} |}.
Proof.
  assert (content george <> "exit") as H by discriminate.
  exact (proj1 (accepted_message_resolves_phase
                  channel noData askNameFn george askingName (start [])
                  {| name := Some "George"; age := None |} 1%nat _ _
                  H eq_refl eq_refl eq_refl)).
Defined.

Lemma timeout_witness :
  children (this (fst (onTimeout (listeners channel noData) collecting (start []))))
  = [].
Proof.
  exact (proj1 (proj2 (timeout_ends_phase_inactive
                         channel noData collecting (start []) _ _
                         eq_refl eq_refl))).
Defined.

Lemma other_messages_witness :
  content notANumber <> "exit"
  /\ exists ev rest,
       log (snd (onMessage (listeners channel noData) askAgeFn noData notANumber
                   collecting (start [])))
       = Eff_function notANumber :: Eff_emit ev :: rest.
Proof.
  assert (content notANumber <> "exit") as H by discriminate.
  split; [exact H|].
  destruct (other_messages_reach_the_function_once
              channel noData askAgeFn notANumber collecting (start []) _ _
              H eq_refl) as (ev & rest & E & _).
  exists ev, rest. exact E.
Defined.

Lemma timed_phase_witness :
  duration tenSeconds <> 0
  /\ promise (fst (collect tenSeconds channel noData None (start []))) <> Pending.
Proof.
  assert (duration tenSeconds <> 0) as H by discriminate.
  split; [exact H|].
  exact (proj1 (timed_phase_always_settles tenSeconds channel noData None (start []) H)).
Defined.

Lemma valid_subtree_witness : valid askAge = true.
Proof.
  apply (valid_subtree askName askAge); [reflexivity|].
  apply (reach_child askName askAge askAge); [now left | apply reach_self].
Defined.

Lemma valid_branching_witness :
  In tooOld (children askAge)
  /\ exists cond i st1,
       condition tooOld = Some cond
       /\ call_condition i cond georgeIsThirty st1
          = (Normal true, snd (getNext askAge georgeIsThirty (start []))).
Proof.
  assert (reachable askName askAge) as Hr.
  { apply (reach_child askName askAge askAge); [now left | apply reach_self]. }
  assert (1 < length (children askAge))%nat as Hl by (cbn; lia).
  exact (valid_branching_selects_by_condition askName askAge georgeIsThirty
           (start []) tooOld _ eq_refl Hr Hl eq_refl).
Defined.

Lemma failed_send_witness :
  fst (execute runner askName deadChannel (start [])) = Threw (JsError "Missing Access")
  /\ ran (snd (execute runner askName deadChannel (start []))) = [askName].
Proof.
  destruct (proj1 (failed_send_and_the_trace deadChannel)
              runner askName (start []) "Missing Access" 1%nat eq_refl)
    as (H1 & H2 & _).
  split; [exact H1 | exact H2].
Defined.

Lemma timed_menu_witness :
  fst (execute runner tooOld channel (start [])) <> Waiting.
Proof.
  apply timed_menu_never_waits.
  intros n Hn. inversion Hn as [|p c n' Hin _]; subst; [discriminate|].
  destruct Hin.
Defined.

Lemma dropped_children_witness :
  snd (loop 1 channel askName noData (start [(5, exitMessage)]))
  = snd (collect askName channel noData None (start [(5, exitMessage)])).
Proof.
  exact (proj1 (dropped_children_end_the_traversal channel O askName noData
                  (start [(5, exitMessage)]) _ eq_refl eq_refl)).
Defined.

End ExtraFacts.
